(** * Minesweeper decision engine: embedding of [src/solver.py]

    The solver is embedded function by function.  Python values are
    modelled as follows.

    - [int] is [Z]; a coordinate is a pair of [Z].
    - [str] is [string]; cell states are taken to be ASCII strings, as
      every state the repository produces is.
    - A [set] of coordinates is a [gset (Z * Z)].  The order in which
      Python iterates over a set is unspecified: it is the parameter
      [set_iter] of the section below, about which only one thing is
      assumed, namely that it lists the elements of the set once each.
    - A [dict] is an association list in insertion order, which is the
      order Python iterates a dict in.
    - A [float] that the solver produces by dividing two integers is
      modelled by the exact quotient in [Q] (Python's [/] returns the
      double nearest to it).  The one product of floats in the code,
      [(rows * cols) * 0.15], is computed in binary64 arithmetic
      proper, see [fmul].
    - A raised exception is the [Raise] case of the result type [res].
    - [logger] calls have no effect on results and are left out. *)

From Stdlib Require Import ZArith QArith Lia Lqa Ascii.
From stdpp Require Import base gmap sets list strings sorting.

Local Close Scope Q_scope.
Local Open Scope Z_scope.
#[local] Set Warnings "-clear-no-such-hyp".

(** ** Exceptions and control flow *)

Inductive exn := IndexError | ValueError | ZeroDivisionError.

Inductive res (A : Type) : Type :=
| Ok (a : A)
| Raise (e : exn).
Arguments Ok {A} a.
Arguments Raise {A} e.

#[global] Instance res_ret : MRet res := @Ok.
#[global] Instance res_bind : MBind res := λ A B f m,
  match m with
  | Ok a => f a
  | Raise e => Raise e
  end.

(** What one pass through a loop body says: [return r] from the
    enclosing function, or go on with the loop state [s]. *)
Inductive flow (R S : Type) : Type :=
| Return (r : R)
| Next (s : S).
Arguments Return {R S} r.
Arguments Next {R S} s.

(** [for x in l: body], no [return] inside, exceptions propagate. *)
Fixpoint for_in {A S} (l : list A) (body : A → S → res S) (s : S) : res S :=
  match l with
  | [] => Ok s
  | x :: l' => s' ← body x s; for_in l' body s'
  end.

(** [for x in l: body], with [return] inside, no exception. *)
Fixpoint for_each {A R S} (l : list A) (body : A → S → flow R S) (s : S)
  : flow R S :=
  match l with
  | [] => Next s
  | x :: l' =>
      match body x s with
      | Return r => Return r
      | Next s' => for_each l' body s'
      end
  end.

(** [for x in l: body], with [return] inside, exceptions propagate. *)
Fixpoint for_eachM {A R S} (l : list A) (body : A → S → res (flow R S)) (s : S)
  : res (flow R S) :=
  match l with
  | [] => Ok (Next s)
  | x :: l' =>
      f ← body x s;
      match f with
      | Return r => Ok (Return r)
      | Next s' => for_eachM l' body s'
      end
  end.

(** [range(n)] *)
Definition range (n : Z) : list Z := Z.of_nat <$> seq 0 (Z.to_nat n).

(** [itertools.combinations(l, r)]: the [r]-element subsequences of
    [l], in lexicographic order of positions. *)
Fixpoint combinations {A} (l : list A) (r : nat) : list (list A) :=
  match r with
  | O => [[]]
  | S r' =>
      match l with
      | [] => []
      | x :: l' => (cons x <$> combinations l' r') ++ combinations l' r
      end
  end.

(** ** Strings *)

(** [str.isdigit], on ASCII strings. *)
Definition is_ascii_digit (a : ascii) : bool :=
  (48 <=? nat_of_ascii a)%nat && (nat_of_ascii a <=? 57)%nat.

Fixpoint all_digits (s : string) : bool :=
  match s with
  | EmptyString => true
  | String a s' => is_ascii_digit a && all_digits s'
  end.

Definition isdigit (s : string) : bool :=
  match s with
  | EmptyString => false
  | String _ _ => all_digits s
  end.

(** [int(s)] on strings of decimal digits; anything else is reported as
    a [ValueError] (the solver calls [int] on digit strings only). *)
Fixpoint int_digits (acc : Z) (s : string) : res Z :=
  match s with
  | EmptyString => Ok acc
  | String a s' =>
      if is_ascii_digit a
      then int_digits (10 * acc + (Z.of_nat (nat_of_ascii a) - 48)) s'
      else Raise ValueError
  end.

Definition int (s : string) : res Z :=
  match s with
  | EmptyString => Raise ValueError
  | String _ _ => int_digits 0 s
  end.

(** ** Numbers *)

(** [a / b] on integers. *)
Definition truediv (a b : Z) : res Q :=
  if bool_decide (b = 0) then Raise ZeroDivisionError
  else if bool_decide (0 < b) then Ok (Qmake a (Z.to_pos b))
  else Ok (Qmake (- a) (Z.to_pos (- b))).

(** Non-negative binary64 numbers, as mantissa and exponent: [(m, e)]
    stands for [m * 2^e].  The exponent range is not modelled. *)
Abbreviation float := (Z * Z)%type (only parsing).

(** Rounding of [m * 2^e] to 53 significant bits, to nearest, ties to
    even. *)
Definition round_binary64 (m e : Z) : float :=
  let b := Z.log2 m in
  if b <=? 52 then (m, e)
  else
    let sh := b - 52 in
    let q := Z.shiftr m sh in
    let r := Z.land m (Z.ones sh) in
    let half := Z.shiftl 1 (sh - 1) in
    if (half <? r) || ((r =? half) && Z.odd q) then (q + 1, e + sh)
    else (q, e + sh).

Definition float_of_int (n : Z) : float := round_binary64 n 0.

Definition fmul (x y : float) : float := round_binary64 (x.1 * y.1) (x.2 + y.2).

(** [int(x)]: truncation. *)
Definition int_of_float (x : float) : Z :=
  if 0 <=? x.2 then Z.shiftl x.1 x.2 else Z.shiftr x.1 (- x.2).

(** The literal [0.15]: the double nearest to 15/100. *)
Definition float_0_15 : float := (5404319552844595, -55).

(** ** src/config.py *)

Record MinesweeperConfig := {
  STATE_COVERED : string;
  STATE_UNCOVERED : string;
  STATE_FLAGGED : string;
  STATE_MINE : string;
  STATE_UNKNOWN : string;
  MAX_CONFIGURATIONS : Z;
  ENABLE_LOGIC_RULES : bool;
  ENABLE_PROBABILITY_CALCULATION : bool
}.

Definition config : MinesweeperConfig := {|
  STATE_COVERED := "covered";
  STATE_UNCOVERED := "uncovered";
  STATE_FLAGGED := "flagged";
  STATE_MINE := "mine";
  STATE_UNKNOWN := "unknown";
  MAX_CONFIGURATIONS := 10000;
  ENABLE_LOGIC_RULES := true;
  ENABLE_PROBABILITY_CALCULATION := true
|}.

(** ** Boards *)

Abbreviation coord := (Z * Z)%type (only parsing).

(** A two-dimensional [np.ndarray] of strings: its shape and its items.
    [item] is read at positions inside the shape only. *)
Record ndarray := {
  shape0 : nat;
  shape1 : nat;
  item : Z → Z → string
}.

(** [np.array(l)] for a list of rows of equal length. *)
Definition array (l : list (list string)) : ndarray := {|
  shape0 := length l;
  shape1 := length (hd [] l);
  item := λ r c, nth (Z.to_nat c) (nth (Z.to_nat r) l []) EmptyString
|}.

(** An index [i] along an axis of size [n]: negative indices count from
    the end, anything outside [-n .. n-1] is an [IndexError]. *)
Definition normalize_index (n : nat) (i : Z) : res Z :=
  if bool_decide (0 ≤ i < Z.of_nat n) then Ok i
  else if bool_decide (- Z.of_nat n ≤ i < 0) then Ok (i + Z.of_nat n)
  else Raise IndexError.

(** [board[r, c]] *)
Definition getitem (board : ndarray) (rc : coord) : res string :=
  r ← normalize_index (shape0 board) rc.1;
  c ← normalize_index (shape1 board) rc.2;
  Ok (item board r c).

(** ** src/board_manager.py *)

Definition get_neighbors (rows cols row col : Z) : res (gset coord) :=
  if negb (bool_decide (0 ≤ row < rows) && bool_decide (0 ≤ col < cols))
  then Raise ValueError
  else
    Ok (fold_left (λ neighbors dr,
          fold_left (λ neighbors dc,
            if bool_decide (dr = 0) && bool_decide (dc = 0) then neighbors
            else
              let nr := row + dr in
              let nc := col + dc in
              if bool_decide (0 ≤ nr < rows) && bool_decide (0 ≤ nc < cols)
              then neighbors ∪ {[ (nr, nc) ]}
              else neighbors)
            [-1; 0; 1] neighbors)
          [-1; 0; 1] ∅).

(** ** src/solver.py *)

Abbreviation move := (Z * Z * string)%type (only parsing).

Definition is_numbered_cell (cell_state : string) : bool :=
  isdigit cell_state && negb (bool_decide (cell_state = "0")).

Definition get_cell_value (cell_state : string) : res Z :=
  if is_numbered_cell cell_state then int cell_state else Ok 0.

Definition get_numbered_cells (board : ndarray) : res (list coord) :=
  for_in (range (Z.of_nat (shape0 board))) (λ row numbered,
    for_in (range (Z.of_nat (shape1 board))) (λ col numbered,
      st ← getitem board (row, col);
      Ok (if is_numbered_cell st then numbered ++ [(row, col)] else numbered))
      numbered)
    [].

(** A [dict] keyed by coordinates, in insertion order. *)
Abbreviation dict V := (list (Z * Z * V)) (only parsing).

(** [d[k]], with [dflt] for a missing key. *)
Fixpoint dict_get {V} (d : dict V) (k : coord) (dflt : V) : V :=
  match d with
  | [] => dflt
  | (k', v) :: d' => if bool_decide (k' = k) then v else dict_get d' k dflt
  end.

(** [d[k] = v]: an existing key keeps its place, a new one goes last. *)
Fixpoint dict_set {V} (d : dict V) (k : coord) (v : V) : dict V :=
  match d with
  | [] => [(k, v)]
  | (k', v') :: d' =>
      if bool_decide (k' = k) then (k', v) :: d' else (k', v') :: dict_set d' k v
  end.

(** [mine_counts[cell] += 1] on a [defaultdict(int)]. *)
Definition dict_incr (d : dict Z) (k : coord) : dict Z :=
  dict_set d k (dict_get d k 0 + 1).

Definition Qlt_bool (x y : Q) : bool := negb (Qle_bool y x).

(** [min(l, key=...)] on a non-empty sequence [x :: l]: the first item
    whose key no later item undercuts. *)
Definition min_by_value (x : coord * Q) (l : list (coord * Q)) : coord * Q :=
  fold_left (λ best y, if Qlt_bool y.2 best.2 then y else best) l x.

Definition get_safest_cell (probabilities : dict Q) : option coord :=
  match probabilities with
  | [] => None
  | x :: l => Some (min_by_value x l).1
  end.

(** [int((rows * cols) * 0.15)] *)
Definition estimate_total_mines (rows cols : Z) : Z :=
  int_of_float (fmul (float_of_int (rows * cols)) float_0_15).

Definition calculate_simple_probability
    (board : ndarray) (total_mines : option Z) : res (dict Q) :=
  '(covered_cells, flagged_count) ←
    for_in (range (Z.of_nat (shape0 board))) (λ row acc,
      for_in (range (Z.of_nat (shape1 board))) (λ col '(covered_cells, flagged_count),
        st ← getitem board (row, col);
        if bool_decide (st = STATE_COVERED config)
        then Ok (covered_cells ++ [(row, col)], flagged_count)
        else if bool_decide (st = STATE_FLAGGED config)
        then Ok (covered_cells, flagged_count + 1)
        else Ok (covered_cells, flagged_count))
        acc)
      ([], 0);
  match covered_cells with
  | [] => Ok []
  | _ :: _ =>
      let total_mines :=
        match total_mines with
        | Some t => t
        | None =>
            let rows := Z.of_nat (shape0 board) in
            let cols := Z.of_nat (shape1 board) in
            if bool_decide ((rows, cols) = (9, 9)) then 10
            else if bool_decide ((rows, cols) = (16, 16)) then 40
            else if bool_decide ((rows, cols) = (16, 30)) then 99
            else estimate_total_mines rows cols
        end in
      let remaining_mines := Z.max 0 (total_mines - flagged_count) in
      probability ←
        match covered_cells with
        | [] => Ok 0%Q
        | _ :: _ => truediv remaining_mines (Z.of_nat (length covered_cells))
        end;
      Ok (fold_left (λ d cell, dict_set d cell probability) covered_cells [])
  end.

(** The state of a [MinesweeperSolver] object. *)
Record MinesweeperSolver := { self_board : option ndarray }.

Section Solver.

(** The order in which a set is iterated. *)
Variable set_iter : gset coord → list coord.

Definition get_unrevealed_neighbors
    (board : ndarray) (row col : Z) : res (gset coord) :=
  neighbors ← get_neighbors (Z.of_nat (shape0 board)) (Z.of_nat (shape1 board)) row col;
  for_in (set_iter neighbors) (λ n acc,
    st ← getitem board n;
    Ok (if bool_decide (st = STATE_COVERED config) then acc ∪ {[ n ]} else acc))
    ∅.

Definition get_flagged_neighbors
    (board : ndarray) (row col : Z) : res (gset coord) :=
  neighbors ← get_neighbors (Z.of_nat (shape0 board)) (Z.of_nat (shape1 board)) row col;
  for_in (set_iter neighbors) (λ n acc,
    st ← getitem board n;
    Ok (if bool_decide (st = STATE_FLAGGED config) then acc ∪ {[ n ]} else acc))
    ∅.

Definition apply_logic_rules (board : ndarray) : res (list move) :=
  let rows := Z.of_nat (shape0 board) in
  let cols := Z.of_nat (shape1 board) in
  numbered ← get_numbered_cells board;
  for_in numbered (λ '(r, c) moves,
    st ← getitem board (r, c);
    number ← get_cell_value st;
    neighbors ← get_neighbors rows cols r c;
    unrevealed ← get_unrevealed_neighbors board r c;
    flagged ← get_flagged_neighbors board r c;
    let moves :=
      if bool_decide (Z.of_nat (size unrevealed) + Z.of_nat (size flagged) = number)
      then fold_left (λ moves n, moves ++ [(n, "flag")]) (set_iter unrevealed) moves
      else moves in
    let moves :=
      if bool_decide (Z.of_nat (size flagged) = number)
      then fold_left (λ moves n, moves ++ [(n, "reveal")]) (set_iter unrevealed) moves
      else moves in
    Ok moves)
    [].

Definition build_constraint_set (board : ndarray) : res (list (gset coord * Z)) :=
  numbered ← get_numbered_cells board;
  for_in numbered (λ '(r, c) constraints,
    st ← getitem board (r, c);
    number ← get_cell_value st;
    unrevealed ← get_unrevealed_neighbors board r c;
    Ok (if bool_decide (unrevealed ≠ ∅)
        then constraints ++ [(unrevealed, number)]
        else constraints))
    [].

Definition enumerate_valid_configurations
    (constraints : list (gset coord * Z)) (max_iterations : Z)
  : list (gset coord) :=
  let valid_configs := [] in
  let all_cells := fold_left (λ all_cells '(cells, _), all_cells ∪ cells) constraints ∅ in
  if bool_decide (all_cells = ∅) then valid_configs
  else
    match
      for_each (seq 0 (size all_cells + 1)) (λ num_mines valid_configs,
        for_each (combinations (set_iter all_cells) num_mines)
          (λ mine_combination valid_configs,
            let mine_set : gset coord := list_to_set mine_combination in
            let satisfies_all :=
              forallb (λ '(cells, required_count),
                bool_decide (Z.of_nat (size (mine_set ∩ cells)) = required_count))
                constraints in
            let valid_configs :=
              if satisfies_all then valid_configs ++ [mine_set] else valid_configs in
            if bool_decide (max_iterations ≤ Z.of_nat (length valid_configs))
            then Return valid_configs
            else Next valid_configs)
          valid_configs)
        valid_configs
    with
    | Return valid_configs => valid_configs
    | Next valid_configs => valid_configs
    end.

Definition calculate_probabilities (board : ndarray) : res (dict Q) :=
  constraints ← build_constraint_set board;
  match constraints with
  | [] => calculate_simple_probability board None
  | _ :: _ =>
      let valid_configs :=
        enumerate_valid_configurations constraints (MAX_CONFIGURATIONS config) in
      match valid_configs with
      | [] => calculate_simple_probability board None
      | _ :: _ =>
          let mine_counts :=
            fold_left (λ mine_counts config_mines,
              fold_left dict_incr (set_iter config_mines) mine_counts)
              valid_configs [] in
          let total_configs := Z.of_nat (length valid_configs) in
          for_in mine_counts.*1 (λ cell probabilities,
            p ← truediv (dict_get mine_counts cell 0) total_configs;
            Ok (dict_set probabilities cell p))
            []
      end
  end.

Definition _make_guess (board : ndarray) : res (list move) :=
  let rows := Z.of_nat (shape0 board) in
  let cols := Z.of_nat (shape1 board) in
  let corners := [(0, 0); (0, cols - 1); (rows - 1, 0); (rows - 1, cols - 1)] in
  f ← for_eachM corners (λ '(r, c) _,
         st ← getitem board (r, c);
         Ok (if bool_decide (st = STATE_COVERED config)
             then Return [((r, c), "reveal")] else Next ()))
         ();
  match f with
  | Return moves => Ok moves
  | Next _ =>
      f ← for_eachM (range cols) (λ c _,
             st ← getitem board (0, c);
             if bool_decide (st = STATE_COVERED config)
             then Ok (Return [((0, c), "reveal")])
             else
               st ← getitem board (rows - 1, c);
               Ok (if bool_decide (st = STATE_COVERED config)
                   then Return [((rows - 1, c), "reveal")] else Next ()))
             ();
      match f with
      | Return moves => Ok moves
      | Next _ =>
          f ← for_eachM (range rows) (λ r _,
                 for_eachM (range cols) (λ c _,
                   st ← getitem board (r, c);
                   Ok (if bool_decide (st = STATE_COVERED config)
                       then Return [((r, c), "reveal")] else Next ()))
                   ())
                 ();
          match f with
          | Return moves => Ok moves
          | Next _ => Ok []
          end
      end
  end.

(** [solve] stores the board in the object and returns the moves. *)
Definition solve (self : MinesweeperSolver) (board : ndarray)
  : MinesweeperSolver * res (list move) :=
  let self := {| self_board := Some board |} in
  (self,
   f ← (if ENABLE_LOGIC_RULES config
        then
          moves ← apply_logic_rules board;
          Ok (match moves with [] => Next () | _ :: _ => Return moves end)
        else Ok (Next ()));
   match f with
   | Return moves => Ok moves
   | Next _ =>
       f ← (if ENABLE_PROBABILITY_CALCULATION config
            then
              probabilities ← calculate_probabilities board;
              match probabilities with
              | [] => Ok (Next ())
              | _ :: _ =>
                  match get_safest_cell probabilities with
                  | Some safest_cell => Ok (Return [(safest_cell, "reveal")])
                  | None => Ok (Next ())
                  end
              end
            else Ok (Next ()));
       match f with
       | Return moves => Ok moves
       | Next _ => _make_guess board
       end
   end).


(** ** What the functions compute, in closed form

    The definitions below are not part of the solver: they state, without
    loops and exceptions, what its functions are shown to return. *)

Definition state_at (board : ndarray) (p : coord) : string :=
  item board p.1 p.2.

Definition in_bounds (board : ndarray) (p : coord) : Prop :=
  0 ≤ p.1 < Z.of_nat (shape0 board) ∧ 0 ≤ p.2 < Z.of_nat (shape1 board).

(** The two cells are at Chebyshev distance 1: they differ, and are at
    most one row and one column apart. *)
Definition adjacent (p q : coord) : Prop :=
  Z.max (Z.abs (q.1 - p.1)) (Z.abs (q.2 - p.2)) = 1.

(** All positions of the board, row by row. *)
Definition all_coords (board : ndarray) : list coord :=
  r ← range (Z.of_nat (shape0 board));
  c ← range (Z.of_nat (shape1 board));
  [(r, c)].

Definition numbered_cells (board : ndarray) : list coord :=
  filter (λ p, is_numbered_cell (state_at board p) = true) (all_coords board).

Definition neighbor_offsets : list (Z * Z) :=
  [(-1, -1); (-1, 0); (-1, 1); (0, -1); (0, 1); (1, -1); (1, 0); (1, 1)].

Definition neighbors_of (board : ndarray) (p : coord) : gset coord :=
  list_to_set
    (filter (λ q, in_bounds board q)
       ((λ d : Z * Z, (p.1 + d.1, p.2 + d.2)) <$> neighbor_offsets)).

Definition covered_neighbors (board : ndarray) (p : coord) : gset coord :=
  filter (λ q, state_at board q = STATE_COVERED config) (neighbors_of board p).

Definition flagged_neighbors (board : ndarray) (p : coord) : gset coord :=
  filter (λ q, state_at board q = STATE_FLAGGED config) (neighbors_of board p).

(** The number a string of decimal digits denotes. *)
Definition digits_value (s : string) : Z :=
  fold_left (λ acc a, 10 * acc + (Z.of_nat (nat_of_ascii a) - 48))
    (String.list_ascii_of_string s) 0.

Definition cell_number (board : ndarray) (p : coord) : Z :=
  digits_value (state_at board p).

(** The moves the two logic rules give for the numbered cell [p]. *)
Definition flag_moves (board : ndarray) (p : coord) : list move :=
  if bool_decide (Z.of_nat (size (covered_neighbors board p))
                  + Z.of_nat (size (flagged_neighbors board p))
                  = cell_number board p)
  then (λ q, (q, "flag")) <$> set_iter (covered_neighbors board p)
  else [].

Definition reveal_moves (board : ndarray) (p : coord) : list move :=
  if bool_decide (Z.of_nat (size (flagged_neighbors board p)) = cell_number board p)
  then (λ q, (q, "reveal")) <$> set_iter (covered_neighbors board p)
  else [].

(** The constraint the numbered cell [p] gives, if it gives one. *)
Definition cell_constraint (board : ndarray) (p : coord) : list (gset coord * Z) :=
  if bool_decide (covered_neighbors board p ≠ ∅)
  then [(covered_neighbors board p, cell_number board p)]
  else [].

(** The frontier: the cells that occur in some constraint. *)
Definition frontier (constraints : list (gset coord * Z)) : gset coord :=
  ⋃ constraints.*1.

(** The mine set [S] meets every constraint exactly. *)
Definition satisfies (constraints : list (gset coord * Z)) (S : gset coord) : Prop :=
  Forall (λ c : gset coord * Z, Z.of_nat (size (S ∩ c.1)) = c.2) constraints.

#[local] Instance satisfies_dec constraints S : Decision (satisfies constraints S).
Proof. unfold satisfies. apply _. Defined.

(** A valid configuration: a subset of the frontier that meets every
    constraint. *)
Definition valid_configuration
    (constraints : list (gset coord * Z)) (S : gset coord) : Prop :=
  S ⊆ frontier constraints ∧ satisfies constraints S.

(** The candidates in the order the enumerator visits them. *)
Definition candidates (constraints : list (gset coord * Z)) : list (list coord) :=
  num_mines ← seq 0 (size (frontier constraints) + 1);
  combinations (set_iter (frontier constraints)) num_mines.

(** All valid configurations, in the order the enumerator finds them. *)
Definition all_valid (constraints : list (gset coord * Z)) : list (gset coord) :=
  list_to_set <$>
    filter (λ m, satisfies constraints (list_to_set m)) (candidates constraints).

(** The body of the inner loop of [enumerate_valid_configurations]. *)
Definition check_candidate (constraints : list (gset coord * Z)) (max_iterations : Z)
    (mine_combination : list coord) (valid_configs : list (gset coord))
  : flow (list (gset coord)) (list (gset coord)) :=
  let mine_set : gset coord := list_to_set mine_combination in
  let satisfies_all :=
    forallb (λ '(cells, required_count),
      bool_decide (Z.of_nat (size (mine_set ∩ cells)) = required_count))
      constraints in
  let valid_configs :=
    if satisfies_all then valid_configs ++ [mine_set] else valid_configs in
  if bool_decide (max_iterations ≤ Z.of_nat (length valid_configs))
  then Return valid_configs
  else Next valid_configs.

(** The value a function ends with, whether by [return] or by falling
    off the loop with the same variable. *)
Definition out {R} (f : flow R R) : R :=
  match f with
  | Return r => r
  | Next r => r
  end.

(** Row-major order of positions. *)
Definition row_major (p q : coord) : Prop :=
  p.1 < q.1 ∨ (p.1 = q.1 ∧ p.2 < q.2).

(** What the uniform fallback counts and computes. *)
Definition covered_cells (board : ndarray) : list coord :=
  filter (λ p, state_at board p = STATE_COVERED config) (all_coords board).

Definition flagged_count (board : ndarray) : Z :=
  Z.of_nat (length (filter (λ p, state_at board p = STATE_FLAGGED config)
                      (all_coords board))).

Definition default_total_mines (board : ndarray) : Z :=
  let rows := Z.of_nat (shape0 board) in
  let cols := Z.of_nat (shape1 board) in
  if bool_decide (rows = 9 ∧ cols = 9) then 10
  else if bool_decide (rows = 16 ∧ cols = 16) then 40
  else if bool_decide (rows = 16 ∧ cols = 30) then 99
  else estimate_total_mines rows cols.

Definition remaining_mines (board : ndarray) : Z :=
  Z.max 0 (default_total_mines board - flagged_count board).

Definition uniform_probability (board : ndarray) : Q :=
  Qmake (remaining_mines board) (Pos.of_nat (length (covered_cells board))).

(** [round(x)]: the nearest integer, ties to even.  The solver does
    not call it; the specification of the fallback does. *)
Definition round_float (x : float) : Z :=
  if 0 <=? x.2 then Z.shiftl x.1 x.2
  else
    let q := Z.shiftr x.1 (- x.2) in
    let r := Z.land x.1 (Z.ones (- x.2)) in
    let half := Z.shiftl 1 (- x.2 - 1) in
    if (half <? r) || ((r =? half) && Z.odd q) then q + 1 else q.

(** The total mine count as the specification words it, with
    [round(rows * cols * 0.15)] for boards of no known size. *)
Definition spec_total_mines (rows cols : Z) : Z :=
  if bool_decide (rows = 9 ∧ cols = 9) then 10
  else if bool_decide (rows = 16 ∧ cols = 16) then 40
  else if bool_decide (rows = 16 ∧ cols = 30) then 99
  else round_float (fmul (float_of_int (rows * cols)) float_0_15).

(** The order in which [_make_guess] looks at the cells: the corners,
    then column by column the top and the bottom cell, then the grid. *)
Definition guess_order (board : ndarray) : list coord :=
  let rows := Z.of_nat (shape0 board) in
  let cols := Z.of_nat (shape1 board) in
  [(0, 0); (0, cols - 1); (rows - 1, 0); (rows - 1, cols - 1)]
  ++ (c ← range cols; [(0, c); (rows - 1, c)])
  ++ all_coords board.

(** The first covered cell of a sequence of positions. *)
Definition first_covered (board : ndarray) (l : list coord) : option coord :=
  head (filter (λ p, state_at board p = STATE_COVERED config) l).

(** One look at a cell in [_make_guess]. *)
Definition look (board : ndarray) (p : coord) (_ : ())
  : res (flow (list move) ()) :=
  st ← getitem board p;
  Ok (if bool_decide (st = STATE_COVERED config)
      then Return [(p, "reveal")] else Next ()).

(** ** The rest of the modules

    The functions below are not needed by the solver's decision; they
    are the geometry of [src/board_manager.py], the coordinate
    computation of [src/mouse_controller.py], the two board tests of
    [src/main.py] and the state update of the solver object. *)

(** [a // b]: the floor of the quotient. *)
Definition floordiv (a b : Z) : res Z :=
  if bool_decide (b = 0) then Raise ZeroDivisionError else Ok (a / b).

(** [detect_board_size]; of the image only [image.shape[:2]] is read,
    which is the argument here. *)
Definition detect_board_size
    (image_shape : Z * Z) (cell_size grid_origin : Z * Z) : res (Z * Z) :=
  let '(img_height, img_width) := image_shape in
  let '(cell_width, cell_height) := cell_size in
  let '(origin_x, origin_y) := grid_origin in
  let usable_width := img_width - origin_x in
  let usable_height := img_height - origin_y in
  cols ← floordiv usable_width cell_width;
  rows ← floordiv usable_height cell_height;
  Ok (rows, cols).

(** [cell_width // 2] has a divisor that is not zero: it is [Z.div]. *)
Definition cell_coordinates_to_screen
    (row col : Z) (grid_origin cell_size : Z * Z) : Z * Z :=
  let '(origin_x, origin_y) := grid_origin in
  let '(cell_width, cell_height) := cell_size in
  let screen_x := origin_x + col * cell_width + cell_width / 2 in
  let screen_y := origin_y + row * cell_height + cell_height / 2 in
  (screen_x, screen_y).

Definition screen_coordinates_to_cell
    (screen_x screen_y : Z) (grid_origin cell_size : Z * Z) : res (Z * Z) :=
  let '(origin_x, origin_y) := grid_origin in
  let '(cell_width, cell_height) := cell_size in
  col ← floordiv (screen_x - origin_x) cell_width;
  row ← floordiv (screen_y - origin_y) cell_height;
  Ok (row, col).

(** The fields of a [MouseController]; times are in seconds. *)
Record MouseController := {
  window_hwnd : Z;
  window_rect : Z * Z * Z * Z;
  enable_safety : bool;
  min_action_delay : Q;
  last_action_time : Q
}.

Definition _cell_to_screen_coords
    (self : MouseController) (row col : Z) (grid_origin cell_size : Z * Z) : Z * Z :=
  let '(origin_x, origin_y) := grid_origin in
  let '(cell_width, cell_height) := cell_size in
  let '(window_left, window_top, _, _) := window_rect self in
  let screen_x := window_left + origin_x + col * cell_width + cell_width / 2 in
  let screen_y := window_top + origin_y + row * cell_height + cell_height / 2 in
  (screen_x, screen_y).

(** [MinesweeperBot.check_game_over]: [x in board] on an array is
    [(board == x).any()]. *)
Definition check_game_over (board : ndarray) : bool :=
  existsb (λ p, bool_decide (state_at board p = STATE_MINE config)) (all_coords board).

(** [MinesweeperBot.check_win] *)
Definition check_win (board : ndarray) : bool :=
  let covered_count :=
    length (filter (λ p, state_at board p = STATE_COVERED config) (all_coords board)) in
  bool_decide (covered_count = 0%nat).

(** [board[r, c] = v].  The array is the object the caller of [solve]
    passed in: what is returned is the new content of that object. *)
Definition setitem (board : ndarray) (rc : coord) (v : string) : res ndarray :=
  r ← normalize_index (shape0 board) rc.1;
  c ← normalize_index (shape1 board) rc.2;
  Ok {| shape0 := shape0 board;
        shape1 := shape1 board;
        item := λ r' c', if bool_decide (r' = r ∧ c' = c) then v else item board r' c' |}.

(** [MinesweeperSolver.__init__] *)
Definition __init__ : MinesweeperSolver := {| self_board := None |}.


(** A placement of mines that agrees with what the board shows: every
    number counts the mines around it, every mine lies under a covered
    or a flagged cell, and every flag stands on a mine. *)
Definition consistent (board : ndarray) (mines : gset coord) : Prop :=
  Forall (λ p,
    (is_numbered_cell (state_at board p) = true →
     Z.of_nat (size (mines ∩ neighbors_of board p)) = cell_number board p)
    ∧ (p ∈ mines →
       state_at board p = STATE_COVERED config ∨ state_at board p = STATE_FLAGGED config)
    ∧ (state_at board p = STATE_FLAGGED config → p ∈ mines))
    (all_coords board).

(** The board of the given shape, for statements about shapes alone. *)
Definition blank (rows cols : Z) : ndarray :=
  {| shape0 := Z.to_nat rows; shape1 := Z.to_nat cols; item := λ _ _, EmptyString |}.

(** ** The board reader of src/board_manager.py

    The reader classifies the cells of a screenshot by colour.  Images
    stay abstract: the reader needs of an image its number of entries,
    the mean colour numpy computes for it (three doubles, none of them
    a NaN when the image has entries; here the rationals they denote,
    in the order blue, green, red), the mean of such a triple, and the
    sub-image a slice selects.  [Images] is that interface. *)

Class Images := {
  (** a BGR image, an array of shape (height, width, 3) *)
  image : Type;
  (** [cell_image.size] *)
  image_size : image → Z;
  (** [np.mean(cell_image, axis=(0, 1))] *)
  mean_color : image → Q * Q * Q;
  (** [np.mean(avg_color)] *)
  mean_channels : Q * Q * Q → Q;
  (** [window_image[y0:y1, x0:x1]] *)
  crop : image → Z * Z → Z * Z → image
}.

(** Screenshots all of whose cells are the grey (190, 190, 190). *)
Definition grey_images : Images := {|
  image := ();
  image_size := λ _, 3;
  mean_color := λ _, (inject_Z 190, inject_Z 190, inject_Z 190);
  mean_channels := λ _, inject_Z 190;
  crop := λ _ _ _, ()
|}.

(** The value under the keys ["lower"] and ["upper"]. *)
Record bounds := {
  lower : Z * Z * Z;
  upper : Z * Z * Z
}.

(** The value under the keys ["covered"], ["flag"] and ["mine"]. *)
Record thresholds := {
  th_covered : bounds;
  th_flag : bounds;
  th_mine : bounds
}.

(** [config.get_color_thresholds()] *)
Definition get_color_thresholds : thresholds := {|
  th_covered := {| lower := (180, 180, 180); upper := (200, 200, 200) |};
  th_flag := {| lower := (0, 0, 200); upper := (50, 50, 255) |};
  th_mine := {| lower := (0, 0, 0); upper := (30, 30, 30) |}
|}.

(** [np.all(x <= y)] and [np.all(x >= y)] *)
Definition all_le (x : Q * Q * Q) (y : Z * Z * Z) : bool :=
  Qle_bool x.1.1 (inject_Z y.1.1) && Qle_bool x.1.2 (inject_Z y.1.2)
  && Qle_bool x.2 (inject_Z y.2).

Definition all_ge (x : Q * Q * Q) (y : Z * Z * Z) : bool :=
  Qle_bool (inject_Z y.1.1) x.1.1 && Qle_bool (inject_Z y.1.2) x.1.2
  && Qle_bool (inject_Z y.2) x.2.

Definition classify_cell `{Images}
    (cell_image : image) (color_thresholds : thresholds) : string :=
  if bool_decide (image_size cell_image = 0) then STATE_UNKNOWN config
  else
    let avg_color := mean_color cell_image in
    let mine_upper := upper (th_mine color_thresholds) in
    if all_le avg_color mine_upper then STATE_MINE config
    else
      let flag_lower := lower (th_flag color_thresholds) in
      let flag_upper := upper (th_flag color_thresholds) in
      if Qle_bool (inject_Z flag_lower.2) avg_color.2
         && Qle_bool avg_color.2 (inject_Z flag_upper.2)
      then STATE_FLAGGED config
      else
        let covered_lower := lower (th_covered color_thresholds) in
        let covered_upper := upper (th_covered color_thresholds) in
        if all_ge avg_color covered_lower && all_le avg_color covered_upper
        then STATE_COVERED config
        else if Qlt_bool (inject_Z 180) (mean_channels avg_color)
             then STATE_UNCOVERED config
             else STATE_UNKNOWN config.

(** The fields of a [BoardReader]. *)
Record BoardReader := {
  self_cell_size : option (Z * Z);
  self_grid_origin : option (Z * Z);
  self_rows : option Z;
  self_cols : option Z;
  self_color_thresholds : thresholds
}.

(** What [read_board] raises: its own [RuntimeError], the [TypeError]
    of a shape that is [None], or what numpy raises. *)
Inductive reader_exn := RuntimeError | TypeError | Numpy (e : exn).

(** [np.empty(shape, dtype=object)].  The entries of the new array are
    [None]; [read_board] assigns every one of them before it returns. *)
Definition np_empty (shape : Z * Z) : res ndarray :=
  if bool_decide (shape.1 < 0 ∨ shape.2 < 0) then Raise ValueError
  else Ok {| shape0 := Z.to_nat shape.1; shape1 := Z.to_nat shape.2;
             item := λ _ _, EmptyString |}.

Definition read_board `{Images} (self : BoardReader) (window_image : image)
  : reader_exn + ndarray :=
  match self_cell_size self, self_grid_origin self with
  | Some cell_size, Some grid_origin =>
      match self_rows self, self_cols self with
      | Some rows, Some cols =>
          match
            board ← np_empty (rows, cols);
            for_in (range rows) (λ row board,
              for_in (range cols) (λ col board,
                let x := grid_origin.1 + col * cell_size.1 in
                let y := grid_origin.2 + row * cell_size.2 in
                let cell_img :=
                  crop window_image (y, y + cell_size.2) (x, x + cell_size.1) in
                setitem board (row, col)
                  (classify_cell cell_img (self_color_thresholds self)))
                board)
              board
          with
          | Ok board => inr board
          | Raise e => inl (Numpy e)
          end
      | _, _ => inl TypeError
      end
  | _, _ => inl RuntimeError
  end.

(** The image of the cell at [p], as [read_board] cuts it out. *)
Definition cell_image `{Images}
    (window_image : image) (cell_size grid_origin : Z * Z) (p : coord) : image :=
  crop window_image
    (grid_origin.2 + p.1 * cell_size.2, grid_origin.2 + p.1 * cell_size.2 + cell_size.2)
    (grid_origin.1 + p.2 * cell_size.1, grid_origin.1 + p.2 * cell_size.1 + cell_size.1).

(** ** Proofs *)

Hypothesis set_iter_perm : ∀ X, set_iter X ≡ₚ elements X.

Lemma elem_of_set_iter (X : gset coord) (x : coord) : x ∈ set_iter X ↔ x ∈ X.
Proof. rewrite set_iter_perm. apply elem_of_elements. Qed.

Lemma NoDup_set_iter (X : gset coord) : NoDup (set_iter X).
Proof. rewrite set_iter_perm. apply NoDup_elements. Qed.

Lemma length_set_iter (X : gset coord) : length (set_iter X) = size X.
Proof. by rewrite set_iter_perm. Qed.

(** *** Loops *)

Lemma for_in_ok {A S} (g : S → A → S) (l : list A) (body : A → S → res S) (s : S) :
  (∀ x s, x ∈ l → body x s = Ok (g s x)) →
  for_in l body s = Ok (fold_left g l s).
Proof.
  revert s. induction l as [|x l IH]; intros s Hbody; [done|].
  cbn. rewrite Hbody by left. cbn. apply IH.
  intros y s' Hy. apply Hbody. by right.
Qed.

Lemma fold_left_snoc_if {A B} (c : A → bool) (f : A → B) (l : list A) (acc : list B) :
  fold_left (λ acc x, if c x then acc ++ [f x] else acc) l acc
  = acc ++ (f <$> filter (λ x, c x = true) l).
Proof.
  revert acc. induction l as [|x l IH]; intros acc; cbn [fold_left].
  { by rewrite app_nil_r. }
  rewrite IH, filter_cons. destruct (c x) eqn:E.
  - rewrite decide_True by done. cbn. by rewrite <- app_assoc.
  - rewrite decide_False by (by intros ?). done.
Qed.

Lemma fold_left_app_bind {A B} (h : A → list B) (l : list A) (acc : list B) :
  fold_left (λ acc x, acc ++ h x) l acc = acc ++ (l ≫= h).
Proof.
  revert acc. induction l as [|x l IH]; intros acc; cbn [fold_left].
  { by rewrite app_nil_r. }
  by rewrite IH, <- app_assoc.
Qed.

Lemma fold_left_nested {S A B} (F : A → B → S → S) (l1 : list A) (l2 : list B) (s : S) :
  fold_left (λ s x, fold_left (λ s y, F x y s) l2 s) l1 s
  = fold_left (λ s (d : A * B), F d.1 d.2 s) (x ← l1; y ← l2; [(x, y)]) s.
Proof.
  revert s. induction l1 as [|x l1 IH]; intros s; [done|].
  rewrite bind_cons, fold_left_app. cbn [fold_left]. rewrite <- IH. f_equal.
  generalize s. clear. induction l2 as [|y l2 IH]; intros s; [done|].
  rewrite bind_cons. cbn. apply IH.
Qed.

Lemma fold_left_ext {S A} (f g : S → A → S) (l : list A) (s : S) :
  (∀ s x, f s x = g s x) → fold_left f l s = fold_left g l s.
Proof.
  intros Hfg. revert s. induction l as [|x l IH]; intros s; [done|].
  cbn. by rewrite Hfg, IH.
Qed.

Lemma fold_left_union_if {A} (c : A → bool) (f : A → coord) (l : list A)
    (acc : gset coord) :
  fold_left (λ acc x, if c x then acc ∪ {[ f x ]} else acc) l acc
  = acc ∪ list_to_set (f <$> filter (λ x, c x = true) l).
Proof.
  revert acc. induction l as [|x l IH]; intros acc; cbn [fold_left].
  { set_solver. }
  rewrite IH, filter_cons. destruct (c x) eqn:E.
  - rewrite decide_True by done. set_solver.
  - rewrite decide_False by (by intros ?). done.
Qed.

Lemma filter_bind {A B} (P : B → Prop) `{!∀ x, Decision (P x)}
    (h : A → list B) (l : list A) :
  filter P (l ≫= h) = l ≫= (λ x, filter P (h x)).
Proof.
  induction l as [|x l IH]; [done|].
  cbn. by rewrite filter_app, IH.
Qed.

Lemma filter_row (P : coord → Prop) `{!∀ x, Decision (P x)} (row : Z) (l : list Z) :
  (λ c, (row, c)) <$> filter (λ c, P (row, c)) l
  = filter P (l ≫= λ c, [(row, c)]).
Proof.
  induction l as [|c l IH]; [done|].
  rewrite bind_cons, filter_app, <- IH, (filter_cons _ c l).
  rewrite (filter_cons _ (row, c) []), filter_nil.
  by destruct (decide _).
Qed.

Lemma elem_of_range (n x : Z) : x ∈ range n ↔ 0 ≤ x < n.
Proof.
  unfold range. rewrite list_elem_of_fmap. setoid_rewrite elem_of_seq. split.
  - intros (k & -> & Hk). lia.
  - intros Hx. exists (Z.to_nat x). lia.
Qed.

Lemma elem_of_all_coords (board : ndarray) (p : coord) :
  p ∈ all_coords board ↔ in_bounds board p.
Proof.
  unfold all_coords, in_bounds. rewrite list_elem_of_bind. split.
  - intros (r & Hp & Hr). apply list_elem_of_bind in Hp as (c & Hp & Hc).
    apply list_elem_of_singleton in Hp as ->. cbn.
    by apply elem_of_range in Hr, Hc.
  - intros [Hr Hc]. exists p.1. split; [|by apply elem_of_range].
    apply list_elem_of_bind. exists p.2. split; [|by apply elem_of_range].
    destruct p. by left.
Qed.

(** *** Indexing *)

Lemma getitem_in_bounds (board : ndarray) (p : coord) :
  in_bounds board p → getitem board p = Ok (state_at board p).
Proof.
  intros [Hr Hc]. unfold getitem, normalize_index.
  by rewrite !bool_decide_eq_true_2.
Qed.

(** *** Numbered cells *)

Lemma get_numbered_cells_ok (board : ndarray) :
  get_numbered_cells board = Ok (numbered_cells board).
Proof.
  unfold get_numbered_cells, numbered_cells, all_coords.
  rewrite (for_in_ok (λ acc row, acc ++
     filter (λ p, is_numbered_cell (state_at board p) = true)
       (c ← range (Z.of_nat (shape1 board)); [(row, c)]))).
  { by rewrite fold_left_app_bind, filter_bind. }
  intros row acc Hrow.
  rewrite (for_in_ok (λ acc col,
     if is_numbered_cell (state_at board (row, col)) then acc ++ [(row, col)] else acc)).
  - rewrite (fold_left_snoc_if (λ col, is_numbered_cell (state_at board (row, col)))
               (λ col, (row, col))).
    by rewrite <- (filter_row (λ p, is_numbered_cell (state_at board p) = true)).
  - intros col acc' Hcol. rewrite getitem_in_bounds; [done|].
    apply elem_of_range in Hrow, Hcol. by split.
Qed.

Lemma elem_of_numbered_cells (board : ndarray) (p : coord) :
  p ∈ numbered_cells board ↔
  in_bounds board p ∧ is_numbered_cell (state_at board p) = true.
Proof.
  unfold numbered_cells. rewrite list_elem_of_filter, elem_of_all_coords. tauto.
Qed.

(** *** Neighbours *)

Lemma elem_of_neighbors_of (board : ndarray) (p q : coord) :
  q ∈ neighbors_of board p ↔ in_bounds board q ∧ adjacent p q.
Proof.
  unfold neighbors_of. rewrite elem_of_list_to_set, list_elem_of_filter.
  apply and_iff_compat_l. rewrite list_elem_of_fmap.
  unfold adjacent, neighbor_offsets. destruct p as [p1 p2], q as [q1 q2]. cbn. split.
  - intros (d & Hq & Hd). rewrite !elem_of_cons, elem_of_nil in Hd.
    destruct_or!; try done; subst d; injection Hq as -> ->; cbn; lia.
  - intros Hadj. exists (q1 - p1, q2 - p2). cbn. split; [f_equal; lia|].
    assert (q1 - p1 = -1 ∨ q1 - p1 = 0 ∨ q1 - p1 = 1) as Hr by lia.
    assert (q2 - p2 = -1 ∨ q2 - p2 = 0 ∨ q2 - p2 = 1) as Hc by lia.
    rewrite !elem_of_cons.
    destruct Hr as [Hr|[Hr|Hr]], Hc as [Hc|[Hc|Hc]]; rewrite Hr, Hc;
      first [ lia | by repeat (first [left; reflexivity | right]) ].
Qed.

Lemma get_neighbors_ok (board : ndarray) (p : coord) :
  in_bounds board p →
  get_neighbors (Z.of_nat (shape0 board)) (Z.of_nat (shape1 board)) p.1 p.2
  = Ok (neighbors_of board p).
Proof.
  intros Hp. unfold get_neighbors.
  destruct Hp as [Hr Hc]. rewrite !bool_decide_eq_true_2 by done.
  cbn [negb andb]. f_equal.
  etrans; [exact (fold_left_nested (λ dr dc (neighbors : gset coord),
    if bool_decide (dr = 0) && bool_decide (dc = 0) then neighbors
    else if bool_decide (0 ≤ p.1 + dr < Z.of_nat (shape0 board))
            && bool_decide (0 ≤ p.2 + dc < Z.of_nat (shape1 board))
         then neighbors ∪ {[ (p.1 + dr, p.2 + dc) ]} else neighbors) _ _ _)|].
  etrans; [apply (fold_left_ext _ (λ (neighbors : gset coord) (d : Z * Z),
    if negb (bool_decide (d.1 = 0) && bool_decide (d.2 = 0))
       && bool_decide (in_bounds board (p.1 + d.1, p.2 + d.2))
    then neighbors ∪ {[ (p.1 + d.1, p.2 + d.2) ]} else neighbors))|].
  { intros nb d. unfold in_bounds. cbn [fst snd].
    destruct (bool_decide (d.1 = 0) && bool_decide (d.2 = 0)); [done|].
    cbn [negb andb]. do 3 case_bool_decide; cbn [andb]; try done; tauto. }
  rewrite (fold_left_union_if _ (λ d : Z * Z, (p.1 + d.1, p.2 + d.2))).
  apply set_eq. intros q. unfold neighbors_of.
  rewrite elem_of_union, !elem_of_list_to_set, list_elem_of_filter, !list_elem_of_fmap.
  setoid_rewrite list_elem_of_filter. split.
  - intros [Hq|(d & -> & Hd & Hin)]; [set_solver|].
    apply andb_true_iff in Hd as [Hd1 Hd2].
    apply bool_decide_eq_true in Hd2. split; [done|].
    exists d. split; [done|]. unfold neighbor_offsets.
    cbn in Hin. rewrite !elem_of_cons, elem_of_nil in Hin. rewrite !elem_of_cons.
    destruct_or!; try done; subst d; first [ done | tauto ].
  - intros (Hq & d & -> & Hin). right. exists d. split; [done|].
    unfold neighbor_offsets in Hin. rewrite !elem_of_cons, elem_of_nil in Hin.
    cbn. rewrite !elem_of_cons.
    destruct_or!; try done; subst d;
      (split; [by rewrite (bool_decide_eq_true_2 _ Hq)|tauto]).
Qed.

Lemma neighbors_in_bounds (board : ndarray) (p q : coord) :
  q ∈ neighbors_of board p → in_bounds board q.
Proof. rewrite elem_of_neighbors_of. tauto. Qed.

Lemma neighbors_with_state_ok (board : ndarray) (p : coord) (state : string) :
  in_bounds board p →
  for_in (set_iter (neighbors_of board p)) (λ n (acc : gset coord),
    st ← getitem board n;
    Ok (if bool_decide (st = state) then acc ∪ {[ n ]} else acc)) ∅
  = Ok (filter (λ q, state_at board q = state) (neighbors_of board p)).
Proof.
  intros Hp.
  rewrite (for_in_ok (λ (acc : gset coord) n,
    if bool_decide (state_at board n = state) then acc ∪ {[ n ]} else acc)).
  - f_equal. rewrite (fold_left_union_if _ id). apply set_eq. intros q.
    rewrite elem_of_union, elem_of_list_to_set, list_fmap_id, list_elem_of_filter.
    rewrite elem_of_filter, elem_of_set_iter, bool_decide_eq_true. set_solver.
  - intros n acc Hn. apply elem_of_set_iter, neighbors_in_bounds in Hn.
    by rewrite getitem_in_bounds.
Qed.

Lemma get_unrevealed_neighbors_ok (board : ndarray) (p : coord) :
  in_bounds board p →
  get_unrevealed_neighbors board p.1 p.2 = Ok (covered_neighbors board p).
Proof.
  intros Hp. unfold get_unrevealed_neighbors. rewrite get_neighbors_ok by done.
  by apply neighbors_with_state_ok.
Qed.

Lemma get_flagged_neighbors_ok (board : ndarray) (p : coord) :
  in_bounds board p →
  get_flagged_neighbors board p.1 p.2 = Ok (flagged_neighbors board p).
Proof.
  intros Hp. unfold get_flagged_neighbors. rewrite get_neighbors_ok by done.
  by apply neighbors_with_state_ok.
Qed.

Lemma elem_of_covered_neighbors (board : ndarray) (p q : coord) :
  q ∈ covered_neighbors board p ↔
  in_bounds board q ∧ adjacent p q ∧ state_at board q = "covered".
Proof.
  unfold covered_neighbors. rewrite elem_of_filter, elem_of_neighbors_of.
  cbn. tauto.
Qed.

Lemma elem_of_flagged_neighbors (board : ndarray) (p q : coord) :
  q ∈ flagged_neighbors board p ↔
  in_bounds board q ∧ adjacent p q ∧ state_at board q = "flagged".
Proof.
  unfold flagged_neighbors. rewrite elem_of_filter, elem_of_neighbors_of.
  cbn. tauto.
Qed.

(** *** Cell values *)

Lemma int_digits_ok (s : string) (acc : Z) :
  all_digits s = true →
  int_digits acc s
  = Ok (fold_left (λ acc a, 10 * acc + (Z.of_nat (nat_of_ascii a) - 48))
          (String.list_ascii_of_string s) acc).
Proof.
  revert acc. induction s as [|a s IH]; intros acc Hs; [done|].
  cbn in Hs. apply andb_true_iff in Hs as [Ha Hs].
  cbn. rewrite Ha. by apply IH.
Qed.

Lemma get_cell_value_ok (st : string) :
  is_numbered_cell st = true → get_cell_value st = Ok (digits_value st).
Proof.
  intros Hst. unfold get_cell_value. rewrite Hst.
  unfold is_numbered_cell in Hst. apply andb_true_iff in Hst as [Hd _].
  destruct st as [|a st]; [done|]. by apply int_digits_ok.
Qed.

(** *** The logic rules and the constraints *)

(** Run one call whose result is known, and go on with the rest. *)
Ltac step_with lem :=
  let H := fresh in
  pose proof lem as H; cbn [fst snd] in H; rewrite H; clear H;
  cbn [mbind res_bind].

Lemma fold_left_snoc {A B} (f : A → B) (l : list A) (acc : list B) :
  fold_left (λ acc x, acc ++ [f x]) l acc = acc ++ (f <$> l).
Proof.
  revert acc. induction l as [|x l IH]; intros acc; cbn [fold_left].
  { by rewrite app_nil_r. }
  by rewrite IH, <- app_assoc.
Qed.

Lemma apply_logic_rules_ok (board : ndarray) :
  apply_logic_rules board
  = Ok (numbered_cells board ≫= λ p, flag_moves board p ++ reveal_moves board p).
Proof.
  unfold apply_logic_rules. rewrite get_numbered_cells_ok. cbn [mbind res_bind].
  rewrite (for_in_ok (λ moves p, moves ++ (flag_moves board p ++ reveal_moves board p))).
  { by rewrite fold_left_app_bind. }
  intros [r c] moves [Hp Hnum]%elem_of_numbered_cells.
  rewrite getitem_in_bounds by done. cbn [mbind res_bind].
  rewrite get_cell_value_ok by done. cbn [mbind res_bind].
  step_with (get_neighbors_ok board (r, c) Hp).
  step_with (get_unrevealed_neighbors_ok board (r, c) Hp).
  step_with (get_flagged_neighbors_ok board (r, c) Hp).
  f_equal. unfold flag_moves, reveal_moves. fold (cell_number board (r, c)).
  rewrite !fold_left_snoc.
  destruct (bool_decide (_ + _ = _)), (bool_decide (_ = _)); cbn [app];
    by rewrite ?app_nil_r, ?app_assoc.
Qed.

Lemma build_constraint_set_ok (board : ndarray) :
  build_constraint_set board = Ok (numbered_cells board ≫= cell_constraint board).
Proof.
  unfold build_constraint_set. rewrite get_numbered_cells_ok. cbn [mbind res_bind].
  rewrite (for_in_ok (λ constraints p, constraints ++ cell_constraint board p)).
  { by rewrite fold_left_app_bind. }
  intros [r c] constraints [Hp Hnum]%elem_of_numbered_cells.
  rewrite getitem_in_bounds by done. cbn [mbind res_bind].
  rewrite get_cell_value_ok by done. cbn [mbind res_bind].
  step_with (get_unrevealed_neighbors_ok board (r, c) Hp).
  f_equal. unfold cell_constraint. fold (cell_number board (r, c)).
  case_bool_decide; by rewrite ?app_nil_r.
Qed.

(** *** Enumeration *)

Lemma for_each_app {A R S} (l1 l2 : list A) (body : A → S → flow R S) (s : S) :
  for_each (l1 ++ l2) body s
  = match for_each l1 body s with
    | Return r => Return r
    | Next s' => for_each l2 body s'
    end.
Proof.
  revert s. induction l1 as [|x l1 IH]; intros s; [done|].
  cbn. destruct (body x s); [done|]. apply IH.
Qed.

Lemma for_each_bind {A B R S} (h : A → list B) (l : list A)
    (body : B → S → flow R S) (s : S) :
  for_each l (λ x s, for_each (h x) body s) s = for_each (l ≫= h) body s.
Proof.
  revert s. induction l as [|x l IH]; intros s; [done|].
  rewrite bind_cons, for_each_app. cbn.
  destruct (for_each (h x) body s); [done|]. apply IH.
Qed.

(** Once the body returns, the rest of the sequence is not visited. *)
Lemma for_each_return {A R S} (l1 l2 : list A) (x : A) (body : A → S → flow R S)
    (s s' : S) (r : R) :
  for_each l1 body s = Next s' → body x s' = Return r →
  for_each (l1 ++ x :: l2) body s = Return r.
Proof. intros H1 Hx. rewrite for_each_app, H1. cbn. by rewrite Hx. Qed.

Lemma fold_left_frontier (constraints : list (gset coord * Z)) (acc : gset coord) :
  fold_left (λ all_cells '(cells, _), all_cells ∪ cells) constraints acc
  = acc ∪ frontier constraints.
Proof.
  unfold frontier. revert acc.
  induction constraints as [|[cells n] cs IH]; intros acc; cbn.
  { set_solver. }
  rewrite IH. set_solver.
Qed.

Lemma forallb_satisfies (constraints : list (gset coord * Z)) (S : gset coord) :
  forallb (λ '(cells, required_count),
    bool_decide (Z.of_nat (size (S ∩ cells)) = required_count)) constraints = true
  ↔ satisfies constraints S.
Proof.
  unfold satisfies. induction constraints as [|[cells n] cs IH]; cbn.
  { split; [constructor|done]. }
  rewrite andb_true_iff, bool_decide_eq_true, IH, Forall_cons. done.
Qed.

Lemma check_candidate_eq constraints max_iterations m vc :
  check_candidate constraints max_iterations m vc
  = let vc' := if decide (satisfies constraints (list_to_set m))
               then vc ++ [list_to_set m] else vc in
    if bool_decide (max_iterations ≤ Z.of_nat (length vc')) then Return vc'
    else Next vc'.
Proof.
  unfold check_candidate. cbn zeta.
  destruct (decide (satisfies constraints (list_to_set m))) as [Hs|Hs].
  - apply forallb_satisfies in Hs. by rewrite Hs.
  - rewrite <- forallb_satisfies in Hs. apply not_true_is_false in Hs. by rewrite Hs.
Qed.

Lemma enumerate_unfold constraints max_iterations :
  enumerate_valid_configurations constraints max_iterations
  = if bool_decide (frontier constraints = ∅) then []
    else out (for_each (candidates constraints)
                (check_candidate constraints max_iterations) []).
Proof.
  unfold enumerate_valid_configurations. cbn zeta.
  rewrite fold_left_frontier, (left_id_L ∅ (∪)).
  case_bool_decide; [done|].
  fold (check_candidate constraints max_iterations).
  by rewrite (for_each_bind (combinations (set_iter (frontier constraints)))).
Qed.

(** Whatever the budget, the loop yields the accumulator followed by a
    prefix of the valid candidates that were still to come. *)
Lemma enum_loop_prefix constraints max_iterations cands acc :
  ∃ k, out (for_each cands (check_candidate constraints max_iterations) acc)
       = acc ++ take k (list_to_set <$>
                          filter (λ m, satisfies constraints (list_to_set m)) cands).
Proof.
  revert acc. induction cands as [|m cands IH]; intros acc.
  { exists 0%nat. cbn. by rewrite app_nil_r. }
  cbn [for_each]. rewrite check_candidate_eq, filter_cons. cbn zeta.
  destruct (decide (satisfies constraints (list_to_set m))) as [Hs|Hs].
  - case_bool_decide.
    + by exists 1%nat.
    + destruct (IH (acc ++ [list_to_set m])) as [k Hk]. exists (S k).
      rewrite Hk, <- app_assoc. done.
  - case_bool_decide.
    + exists 0%nat. cbn. by rewrite app_nil_r.
    + apply IH.
Qed.

(** With a positive budget not yet reached, the loop yields the first
    [max_iterations] entries of the full list. *)
Lemma enum_loop_take constraints max_iterations cands acc :
  Z.of_nat (length acc) < max_iterations →
  out (for_each cands (check_candidate constraints max_iterations) acc)
  = take (Z.to_nat max_iterations)
      (acc ++ (list_to_set <$>
                 filter (λ m, satisfies constraints (list_to_set m)) cands)).
Proof.
  revert acc. induction cands as [|m cands IH]; intros acc Hacc.
  { cbn. rewrite app_nil_r, take_ge; [done|lia]. }
  cbn [for_each]. rewrite check_candidate_eq, filter_cons. cbn zeta.
  destruct (decide (satisfies constraints (list_to_set m))) as [Hs|Hs].
  - case_bool_decide as Hmax.
    + rewrite length_app in Hmax. cbn in Hmax. cbn [out]. rewrite fmap_cons.
      set (rest := _ <$> _).
      rewrite (cons_middle _ acc rest), app_assoc.
      assert (Z.to_nat max_iterations = length (acc ++ [list_to_set m])) as ->
        by (rewrite length_app; cbn; lia).
      symmetry. apply take_app_length.
    + rewrite IH by lia. by rewrite <- app_assoc.
  - case_bool_decide as Hmax; [lia|]. by apply IH.
Qed.

Lemma enumerate_prefix constraints max_iterations :
  enumerate_valid_configurations constraints max_iterations
    `prefix_of` all_valid constraints.
Proof.
  rewrite enumerate_unfold. case_bool_decide; [apply prefix_nil|].
  destruct (enum_loop_prefix constraints max_iterations (candidates constraints) [])
    as [k ->].
  apply prefix_take.
Qed.

Lemma enumerate_take constraints max_iterations :
  0 < max_iterations → frontier constraints ≠ ∅ →
  enumerate_valid_configurations constraints max_iterations
  = take (Z.to_nat max_iterations) (all_valid constraints).
Proof.
  intros Hmax Hne. rewrite enumerate_unfold, bool_decide_eq_false_2 by done.
  by rewrite enum_loop_take.
Qed.

(** *** Combinations *)

Lemma elem_of_combinations {A} (l m : list A) (k : nat) :
  m ∈ combinations l k ↔ m `sublist_of` l ∧ length m = k.
Proof.
  revert m k. induction l as [|x l IH]; intros m k.
  - destruct k as [|k]; cbn.
    + rewrite list_elem_of_singleton, sublist_nil_r. split; [by intros ->|tauto].
    + rewrite elem_of_nil, sublist_nil_r. split; [done|]. by intros [-> ?].
  - destruct k as [|k]; cbn [combinations].
    + rewrite list_elem_of_singleton. split.
      * intros ->. split; [apply sublist_nil_l|done].
      * intros [_ Hm]. by destruct m.
    + rewrite elem_of_app, list_elem_of_fmap, sublist_cons_r. split.
      * intros [(m' & -> & Hm')|Hm].
        -- apply IH in Hm' as [? <-]. split; [right; eauto|done].
        -- apply IH in Hm as [? ?]. split; [by left|done].
      * intros [[Hm|(m' & -> & Hm')] Hlen].
        -- right. by apply IH.
        -- left. exists m'. split; [done|]. apply IH. cbn in Hlen. split; [done|lia].
Qed.

Lemma NoDup_combinations {A} (l : list A) (k : nat) :
  NoDup l → NoDup (combinations l k).
Proof.
  intros Hl. revert k. induction Hl as [|x l Hx Hl IH]; intros k.
  - destruct k; cbn; [apply NoDup_singleton|constructor].
  - destruct k as [|k]; cbn [combinations]; [apply NoDup_singleton|].
    apply NoDup_app. split_and!.
    + apply (NoDup_fmap_2 _), IH.
    + intros m (m' & -> & _)%list_elem_of_fmap [Hm _]%elem_of_combinations.
      apply Hx. eapply elem_of_sublist; [|done]. by left.
    + apply IH.
Qed.

Lemma filter_ext_elem_of {A} (P Q : A → Prop)
    `{!∀ x, Decision (P x), !∀ x, Decision (Q x)} (l : list A) :
  (∀ x, x ∈ l → P x ↔ Q x) → filter P l = filter Q l.
Proof.
  induction l as [|x l IH]; intros HPQ; [done|].
  rewrite !filter_cons, IH by (intros; apply HPQ; by right).
  destruct (decide (P x)) as [HP|HP], (decide (Q x)) as [HQ|HQ]; try done.
  - destruct HQ. apply HPQ; [by left|done].
  - destruct HP. apply HPQ; [by left|done].
Qed.

(** A sublist of a duplicate-free list is determined by its elements. *)
Lemma sublist_filter_elem_of (l m : list coord) :
  NoDup l → m `sublist_of` l → filter (λ x, x ∈ m) l = m.
Proof.
  intros Hl Hm. induction Hm as [|x m l Hm IH|x m l Hm IH].
  - done.
  - apply NoDup_cons in Hl as [Hx Hl]. rewrite filter_cons_True by left.
    f_equal. etrans; [|by apply IH].
    apply filter_ext_elem_of. intros z Hz. rewrite elem_of_cons.
    split; [intros [->|?]; done|by right].
  - apply NoDup_cons in Hl as [Hx Hl]. rewrite filter_cons_False; [by apply IH|].
    intros Hin. apply Hx. by eapply elem_of_sublist.
Qed.

(** *** The valid configurations *)

Lemma elem_of_candidates (constraints : list (gset coord * Z)) (m : list coord) :
  m ∈ candidates constraints ↔ m `sublist_of` set_iter (frontier constraints).
Proof.
  unfold candidates. rewrite list_elem_of_bind. split.
  - intros (k & Hm & _). by apply elem_of_combinations in Hm as [? _].
  - intros Hm. exists (length m). split; [by apply elem_of_combinations|].
    apply elem_of_seq. apply sublist_length in Hm.
    rewrite length_set_iter in Hm. lia.
Qed.

Lemma candidate_NoDup constraints (m : list coord) :
  m ∈ candidates constraints → NoDup m.
Proof.
  intros Hm%elem_of_candidates.
  eapply sublist_NoDup; [apply NoDup_set_iter|done].
Qed.

Lemma candidate_inj constraints (m1 m2 : list coord) :
  m1 ∈ candidates constraints → m2 ∈ candidates constraints →
  list_to_set (C := gset coord) m1 = list_to_set m2 → m1 = m2.
Proof.
  intros H1%elem_of_candidates H2%elem_of_candidates Heq.
  rewrite <- (sublist_filter_elem_of _ m1 (NoDup_set_iter _) H1).
  rewrite <- (sublist_filter_elem_of _ m2 (NoDup_set_iter _) H2).
  apply filter_ext_elem_of. intros x _.
  by rewrite <- !(elem_of_list_to_set (C := gset coord)), Heq.
Qed.

Lemma NoDup_candidates constraints : NoDup (candidates constraints).
Proof.
  apply NoDup_bind; [|intros; apply NoDup_combinations, NoDup_set_iter|apply NoDup_seq].
  intros k1 k2 m _ _ [_ H1]%elem_of_combinations [_ H2]%elem_of_combinations.
  congruence.
Qed.

Lemma elem_of_all_valid (constraints : list (gset coord * Z)) (S : gset coord) :
  S ∈ all_valid constraints ↔ valid_configuration constraints S.
Proof.
  unfold all_valid, valid_configuration.
  rewrite list_elem_of_fmap. setoid_rewrite list_elem_of_filter.
  setoid_rewrite elem_of_candidates. split.
  - intros (m & -> & Hsat & Hm). split; [|done].
    intros x Hx%elem_of_list_to_set.
    by eapply elem_of_set_iter, elem_of_sublist.
  - intros [Hsub Hsat].
    assert (list_to_set (filter (λ x, x ∈ S) (set_iter (frontier constraints))) = S)
      as Heq.
    { apply set_eq. intros x.
      rewrite elem_of_list_to_set, list_elem_of_filter, elem_of_set_iter. set_solver. }
    eexists. split; [by rewrite Heq|]. split; [by rewrite Heq|].
    apply sublist_filter.
Qed.

Lemma NoDup_all_valid constraints : NoDup (all_valid constraints).
Proof.
  apply NoDup_fmap_2_strong; [|apply NoDup_filter, NoDup_candidates].
  intros m1 m2 [_ H1]%list_elem_of_filter [_ H2]%list_elem_of_filter.
  by apply (candidate_inj constraints).
Qed.

Lemma StronglySorted_filter {A} (R : relation A) (P : A → Prop)
    `{!∀ x, Decision (P x)} (l : list A) :
  StronglySorted R l → StronglySorted R (filter P l).
Proof.
  induction 1 as [|x l Hl IH Hx]; [constructor|].
  rewrite filter_cons. destruct (decide (P x)); [|done].
  constructor; [done|]. rewrite Forall_forall in Hx. apply Forall_forall.
  intros y [_ Hy]%list_elem_of_filter. by apply Hx.
Qed.

Lemma candidates_sorted constraints (a n : nat) :
  StronglySorted (λ m1 m2 : list coord, (length m1 ≤ length m2)%nat)
    (seq a n ≫= combinations (set_iter (frontier constraints))).
Proof.
  revert a. induction n as [|n IH]; intros a; [constructor|].
  cbn [seq]. rewrite bind_cons. apply StronglySorted_app_2; [| |apply IH].
  - intros m1 m2 [_ H1]%elem_of_combinations (k & [_ H2]%elem_of_combinations & Hk)%list_elem_of_bind.
    apply elem_of_seq in Hk. lia.
  - assert (Forall (λ m : list coord, length m = a)
              (combinations (set_iter (frontier constraints)) a)) as Hl.
    { apply Forall_forall. by intros m [_ Hm]%elem_of_combinations. }
    induction Hl as [|m l Hm Hl IHl]; constructor; [done|].
    eapply Forall_impl; [done|]. cbn. intros; lia.
Qed.

Lemma all_valid_sorted (constraints : list (gset coord * Z)) :
  StronglySorted (λ S1 S2 : gset coord, (size S1 ≤ size S2)%nat)
    (all_valid constraints).
Proof.
  unfold all_valid.
  assert (∀ l : list (list coord),
    Forall NoDup l →
    StronglySorted (λ m1 m2 : list coord, (length m1 ≤ length m2)%nat) l →
    StronglySorted (λ S1 S2 : gset coord, (size S1 ≤ size S2)%nat)
      (list_to_set <$> l)) as Hfmap.
  { intros l Hnd Hl. induction Hl as [|m l Hl IH Hm]; [constructor|].
    apply Forall_cons in Hnd as [Hndm Hnd]. rewrite fmap_cons.
    constructor; [by apply IH|]. rewrite Forall_fmap.
    rewrite Forall_forall in Hm, Hnd. apply Forall_forall. intros m' Hm'. cbn.
    rewrite !size_list_to_set by auto. by apply Hm. }
  apply Hfmap.
  - apply Forall_forall. intros m [_ Hm]%list_elem_of_filter.
    by eapply candidate_NoDup.
  - apply StronglySorted_filter, candidates_sorted.
Qed.

Lemma valid_empty_frontier (constraints : list (gset coord * Z)) (S : gset coord) :
  frontier constraints = ∅ → valid_configuration constraints S → S = ∅.
Proof. intros Hf [Hsub _]. rewrite Hf in Hsub. set_solver. Qed.

Lemma valid_length_le (constraints : list (gset coord * Z)) (l : list (gset coord)) :
  NoDup l → Forall (valid_configuration constraints) l →
  (length l ≤ length (all_valid constraints))%nat.
Proof.
  intros Hnd Hl. apply submseteq_length, NoDup_submseteq; [done|].
  intros S HS. apply elem_of_all_valid. rewrite Forall_forall in Hl. by apply Hl.
Qed.

Lemma enumerate_valid (constraints : list (gset coord * Z)) (max_iterations : Z) :
  Forall (valid_configuration constraints)
    (enumerate_valid_configurations constraints max_iterations).
Proof.
  apply Forall_forall. intros S HS. apply elem_of_all_valid.
  eapply elem_of_prefix; [done|]. apply enumerate_prefix.
Qed.

Lemma enumerate_NoDup (constraints : list (gset coord * Z)) (max_iterations : Z) :
  NoDup (enumerate_valid_configurations constraints max_iterations).
Proof.
  destruct (enumerate_prefix constraints max_iterations) as [rest Hrest].
  pose proof (NoDup_all_valid constraints) as Hnd. rewrite Hrest in Hnd.
  by apply NoDup_app in Hnd as [? _].
Qed.

Lemma enumerate_complete (constraints : list (gset coord * Z)) (max_iterations : Z) :
  frontier constraints ≠ ∅ →
  (∀ l, NoDup l → Forall (valid_configuration constraints) l →
        Z.of_nat (length l) ≤ max_iterations) →
  enumerate_valid_configurations constraints max_iterations = all_valid constraints.
Proof.
  intros Hne Hcount.
  pose proof (Hcount (all_valid constraints) (NoDup_all_valid _)) as Hlen.
  assert (Forall (valid_configuration constraints) (all_valid constraints)) as Hall.
  { apply Forall_forall. intros S. apply elem_of_all_valid. }
  specialize (Hlen Hall).
  destruct (decide (0 < max_iterations)) as [Hpos|Hpos].
  - rewrite enumerate_take by done. apply take_ge. lia.
  - destruct (all_valid constraints) as [|S l] eqn:Heq; [|cbn in Hlen; lia].
    apply prefix_nil_inv. rewrite <- Heq. apply enumerate_prefix.
Qed.

Lemma frontier_singleton (cells : gset coord) (n : Z) :
  frontier [(cells, n)] = cells.
Proof. unfold frontier. cbn. set_solver. Qed.

Lemma all_valid_two_cells :
  all_valid [({[ (0, 0); (0, 1) ]}, 1)] ≡ₚ [{[ (0, 0) ]}; {[ (0, 1) ]}].
Proof.
  apply NoDup_Permutation; [apply NoDup_all_valid| |].
  { apply NoDup_cons. split; [|apply NoDup_singleton].
    rewrite list_elem_of_singleton. intros Heq.
    assert ((0, 0) ∈ ({[ (0, 1) ]} : gset coord)) as Hin by (rewrite <- Heq; set_solver).
    set_solver. }
  intros S. rewrite elem_of_all_valid. unfold valid_configuration, satisfies.
  rewrite frontier_singleton, Forall_singleton. cbn [fst snd].
  rewrite !elem_of_cons, elem_of_nil. split.
  - intros [Hsub Hsize].
    replace (S ∩ {[ (0, 0); (0, 1) ]}) with S in Hsize by set_solver.
    assert (size S = 1%nat) as Hsz by lia.
    apply size_1_elem_of in Hsz as [x Hx]. apply leibniz_equiv in Hx. subst S.
    assert (x = (0, 0) ∨ x = (0, 1)) as [-> | ->] by set_solver; tauto.
  - intros [-> | [-> | []]].
    + split; [set_solver|].
      replace ({[ (0, 0) ]} ∩ {[ (0, 0); (0, 1) ]}) with ({[ (0, 0) ]} : gset coord)
        by set_solver.
      by rewrite size_singleton.
    + split; [set_solver|].
      replace ({[ (0, 1) ]} ∩ {[ (0, 0); (0, 1) ]}) with ({[ (0, 1) ]} : gset coord)
        by set_solver.
      by rewrite size_singleton.
Qed.

Lemma enumerate_two_cells (max_iterations : Z) :
  2 ≤ max_iterations →
  enumerate_valid_configurations [({[ (0, 0); (0, 1) ]}, 1)] max_iterations
  ≡ₚ [{[ (0, 0) ]}; {[ (0, 1) ]}].
Proof.
  intros Hmax. rewrite enumerate_take; [|lia|].
  - rewrite take_ge; [apply all_valid_two_cells|].
    rewrite all_valid_two_cells. cbn. lia.
  - rewrite frontier_singleton. set_solver.
Qed.

(** C1, as amended: every configuration that [enumerate_valid_configurations]
    returns is a subset of the frontier that meets every constraint
    exactly, and none is returned twice; when the frontier is not empty
    and there are at most [max_iterations] valid configurations, the
    configurations returned are exactly the valid ones; for the single
    constraint ({(0,0),(0,1)}, 1) and a budget of at least two, exactly
    {(0,0)} and {(0,1)} are returned. *)
Theorem enumerate_valid_configurations_correct
    (constraints : list (gset coord * Z)) (max_iterations : Z) :
  Forall (valid_configuration constraints)
    (enumerate_valid_configurations constraints max_iterations)
  ∧ NoDup (enumerate_valid_configurations constraints max_iterations)
  ∧ (frontier constraints ≠ ∅ →
     (∀ l, NoDup l → Forall (valid_configuration constraints) l →
           Z.of_nat (length l) ≤ max_iterations) →
     ∀ S, S ∈ enumerate_valid_configurations constraints max_iterations
          ↔ valid_configuration constraints S)
  ∧ (2 ≤ max_iterations →
     enumerate_valid_configurations [({[ (0, 0); (0, 1) ]}, 1)] max_iterations
     ≡ₚ [{[ (0, 0) ]}; {[ (0, 1) ]}]).
Proof.
  split_and!.
  - apply enumerate_valid.
  - apply enumerate_NoDup.
  - intros Hne Hcount S. rewrite enumerate_complete by done.
    apply elem_of_all_valid.
  - apply enumerate_two_cells.
Qed.

(** C2: with a positive budget, [enumerate_valid_configurations] returns
    at most [max_iterations] configurations; what it returns is the
    first [max_iterations] entries of what any larger budget returns,
    so it stops as soon as the budget is reached, wherever in a size
    class that happens; sizes never decrease along the result, and a
    valid configuration left out is at least as large as every one
    returned; when more than [max_iterations] valid configurations
    exist, exactly [max_iterations] are returned; with an empty frontier
    the result is empty. *)
Theorem enumerate_valid_configurations_budget
    (constraints : list (gset coord * Z)) (max_iterations : Z) :
  0 < max_iterations →
  let result := enumerate_valid_configurations constraints max_iterations in
  Z.of_nat (length result) ≤ max_iterations
  ∧ (∀ larger, max_iterations ≤ larger →
       result = take (Z.to_nat max_iterations)
                  (enumerate_valid_configurations constraints larger))
  ∧ StronglySorted (λ S1 S2 : gset coord, (size S1 ≤ size S2)%nat) result
  ∧ (∀ S S', valid_configuration constraints S → S ∉ result → S' ∈ result →
             (size S' ≤ size S)%nat)
  ∧ ((∃ l, NoDup l ∧ Forall (valid_configuration constraints) l
           ∧ max_iterations < Z.of_nat (length l)) →
     Z.of_nat (length result) = max_iterations)
  ∧ (frontier constraints = ∅ → result = []).
Proof.
  intros Hmax result.
  assert (frontier constraints = ∅ → result = []) as Hempty.
  { intros Hf. unfold result. rewrite enumerate_unfold. by rewrite bool_decide_eq_true_2. }
  destruct (enumerate_prefix constraints max_iterations) as [rest Hrest].
  fold result in Hrest.
  pose proof (all_valid_sorted constraints) as Hsorted. rewrite Hrest in Hsorted.
  split_and!; [| | | | |done].
  - destruct (decide (frontier constraints = ∅)) as [Hf|Hf].
    + rewrite (Hempty Hf). cbn. lia.
    + unfold result. rewrite enumerate_take, length_take by done. lia.
  - intros larger Hlarger. destruct (decide (frontier constraints = ∅)) as [Hf|Hf].
    + rewrite (Hempty Hf). rewrite enumerate_unfold, bool_decide_eq_true_2 by done.
      by rewrite take_nil.
    + unfold result. rewrite !enumerate_take, take_take by (done || lia).
      f_equal. lia.
  - by apply StronglySorted_app_1_l in Hsorted.
  - intros S S' HS Hnot HS'. apply elem_of_all_valid in HS.
    rewrite Hrest in HS. apply elem_of_app in HS as [HS|HS]; [done|].
    by eapply (StronglySorted_app_1_elem_of _ _ _ _ _ Hsorted).
  - intros (l & Hnd & Hl & Hlen).
    assert (frontier constraints ≠ ∅) as Hf.
    { intros Hf. destruct l as [|S1 [|S2 l]]; cbn in Hlen; [lia..|].
      apply NoDup_cons in Hnd as [Hnd _]. apply Hnd.
      apply Forall_cons in Hl as [H1 Hl]. apply Forall_cons in Hl as [H2 _].
      rewrite (valid_empty_frontier _ _ Hf H1), (valid_empty_frontier _ _ Hf H2).
      by left. }
    unfold result. rewrite enumerate_take, length_take by done.
    pose proof (valid_length_le _ _ Hnd Hl). lia.
Qed.

(** *** Scan order *)

Lemma StronglySorted_bind {A B} (R : relation A) (R' : relation B)
    (h : A → list B) (l : list A) :
  (∀ x, x ∈ l → StronglySorted R' (h x)) →
  (∀ x y a b, R x y → a ∈ h x → b ∈ h y → R' a b) →
  StronglySorted R l → StronglySorted R' (l ≫= h).
Proof.
  intros Hh Hcross Hl. induction Hl as [|x l Hl IH Hx]; [constructor|].
  rewrite bind_cons. apply StronglySorted_app_2.
  - intros a b Ha (y & Hb & Hy)%list_elem_of_bind.
    rewrite Forall_forall in Hx. eapply Hcross; [by apply Hx|done..].
  - apply Hh. by left.
  - apply IH. intros; apply Hh. by right.
Qed.

Lemma range_sorted (n : Z) : StronglySorted Z.lt (range n).
Proof.
  unfold range. apply (StronglySorted_fmap _ lt); [intros; lia|].
  generalize 0%nat. induction (Z.to_nat n) as [|k IH]; intros a; cbn; constructor.
  - apply IH.
  - apply Forall_forall. intros x Hx%elem_of_seq. lia.
Qed.

Lemma all_coords_sorted (board : ndarray) : StronglySorted row_major (all_coords board).
Proof.
  unfold all_coords. eapply StronglySorted_bind; [| |apply range_sorted].
  - intros r _. eapply StronglySorted_bind; [| |apply range_sorted].
    + intros c _. repeat constructor.
    + intros c c' p q Hc ->%list_elem_of_singleton ->%list_elem_of_singleton.
      right. by split.
  - intros r r' p q Hr (c & ->%list_elem_of_singleton & _)%list_elem_of_bind
      (c' & ->%list_elem_of_singleton & _)%list_elem_of_bind.
    by left.
Qed.

Lemma NoDup_all_coords (board : ndarray) : NoDup (all_coords board).
Proof.
  pose proof (all_coords_sorted board) as Hs.
  induction Hs as [|p l Hl IH Hp]; constructor; [|done].
  intros Hin. rewrite Forall_forall in Hp. specialize (Hp _ Hin).
  unfold row_major in Hp. lia.
Qed.

Lemma numbered_cells_sorted (board : ndarray) :
  StronglySorted row_major (numbered_cells board).
Proof. apply StronglySorted_filter, all_coords_sorted. Qed.

(** The cell states that are numbers, and those of [config]. *)
Lemma numbered_states :
  Forall (λ sn : string * Z, is_numbered_cell sn.1 = true ∧ digits_value sn.1 = sn.2)
    [("1", 1); ("2", 2); ("3", 3); ("4", 4); ("5", 5); ("6", 6); ("7", 7); ("8", 8)]
  ∧ Forall (λ s, is_numbered_cell s = false)
      ["0"; "covered"; "uncovered"; "flagged"; "mine"; "unknown"].
Proof. split; repeat constructor. Qed.

(** C3: [apply_logic_rules] never fails; it visits the numbered cells
    of the board in row-major order and emits, for each, first a flag
    on every covered neighbour when the covered and the flagged
    neighbours together are as many as the number, then a reveal on
    every covered neighbour when the flagged neighbours are as many as
    the number; the two tests are independent of each other. *)
Theorem apply_logic_rules_spec (board : ndarray) :
  apply_logic_rules board
  = Ok (numbered_cells board ≫= λ p, flag_moves board p ++ reveal_moves board p)
  ∧ StronglySorted row_major (numbered_cells board)
  ∧ (∀ p, p ∈ numbered_cells board ↔
          in_bounds board p ∧ is_numbered_cell (state_at board p) = true)
  ∧ (∀ p q, q ∈ covered_neighbors board p ↔
            in_bounds board q ∧ adjacent p q ∧ state_at board q = "covered")
  ∧ (∀ p q, q ∈ flagged_neighbors board p ↔
            in_bounds board q ∧ adjacent p q ∧ state_at board q = "flagged")
  ∧ (∀ p, flag_moves board p
          = if bool_decide (Z.of_nat (size (covered_neighbors board p))
                            + Z.of_nat (size (flagged_neighbors board p))
                            = cell_number board p)
            then (λ q, (q, "flag")) <$> set_iter (covered_neighbors board p)
            else [])
  ∧ (∀ p, reveal_moves board p
          = if bool_decide (Z.of_nat (size (flagged_neighbors board p))
                            = cell_number board p)
            then (λ q, (q, "reveal")) <$> set_iter (covered_neighbors board p)
            else [])
  ∧ (∀ p, set_iter (covered_neighbors board p)
          ≡ₚ elements (covered_neighbors board p)).
Proof.
  split_and!; try done.
  - apply apply_logic_rules_ok.
  - apply numbered_cells_sorted.
  - apply elem_of_numbered_cells.
  - apply elem_of_covered_neighbors.
  - apply elem_of_flagged_neighbors.
Qed.

(** C7, as amended: [build_constraint_set] never fails; it visits the
    numbered cells in row-major order and emits, for each one that has
    a covered neighbour, the constraint (covered neighbours, number),
    and nothing for the others; it makes no test of satisfiability, so
    that a number larger than the count of covered neighbours yields a
    constraint like any other. *)
Theorem build_constraint_set_spec (board : ndarray) :
  build_constraint_set board = Ok (numbered_cells board ≫= cell_constraint board)
  ∧ StronglySorted row_major (numbered_cells board)
  ∧ (∀ p, p ∈ numbered_cells board ↔
          in_bounds board p ∧ is_numbered_cell (state_at board p) = true)
  ∧ (∀ p q, q ∈ covered_neighbors board p ↔
            in_bounds board q ∧ adjacent p q ∧ state_at board q = "covered")
  ∧ (∀ p, covered_neighbors board p ≠ ∅ →
          cell_constraint board p = [(covered_neighbors board p, cell_number board p)])
  ∧ (∀ p, covered_neighbors board p = ∅ → cell_constraint board p = []).
Proof.
  split_and!.
  - apply build_constraint_set_ok.
  - apply numbered_cells_sorted.
  - apply elem_of_numbered_cells.
  - apply elem_of_covered_neighbors.
  - intros p Hp. unfold cell_constraint. by rewrite bool_decide_eq_true_2.
  - intros p Hp. unfold cell_constraint. by rewrite bool_decide_eq_false_2 by auto.
Qed.

(** *** The uniform fallback *)

Lemma for_in_nested {A B S} (g : S → A * B → S) (l1 : list A) (l2 : list B)
    (body : A → B → S → res S) (s : S) :
  (∀ x y s, x ∈ l1 → y ∈ l2 → body x y s = Ok (g s (x, y))) →
  for_in l1 (λ x s, for_in l2 (body x) s) s
  = Ok (fold_left g (x ← l1; y ← l2; [(x, y)]) s).
Proof.
  intros Hbody.
  rewrite (for_in_ok (λ s x, fold_left g (y ← l2; [(x, y)]) s)).
  - f_equal. revert s. clear. induction l1 as [|x l1 IH]; intros s; [done|].
    rewrite bind_cons, fold_left_app. apply IH.
  - intros x s' Hx. rewrite (for_in_ok (λ s y, g s (x, y))) by auto.
    f_equal. generalize s'. clear. induction l2 as [|y l2 IH]; intros s; [done|].
    rewrite bind_cons. cbn. apply IH.
Qed.

Lemma count_cells_fold (board : ndarray) (l : list coord) (cc : list coord) (fc : Z) :
  fold_left (λ (acc : list coord * Z) p,
    if bool_decide (state_at board p = STATE_COVERED config)
    then (acc.1 ++ [p], acc.2)
    else if bool_decide (state_at board p = STATE_FLAGGED config)
    then (acc.1, acc.2 + 1)
    else acc) l (cc, fc)
  = (cc ++ filter (λ p, state_at board p = STATE_COVERED config) l,
     fc + Z.of_nat (length (filter (λ p, state_at board p = STATE_FLAGGED config) l))).
Proof.
  revert cc fc. induction l as [|p l IH]; intros cc fc; cbn [fold_left].
  { rewrite !filter_nil, app_nil_r. cbn. f_equal. lia. }
  rewrite !filter_cons. case_bool_decide as Hc.
  - cbn [fst snd]. rewrite IH, decide_True by done.
    rewrite decide_False by (rewrite Hc; done). by rewrite <- app_assoc.
  - rewrite decide_False by done. case_bool_decide as Hf.
    + cbn [fst snd]. rewrite IH, decide_True by done. f_equal. cbn [length]. lia.
    + rewrite decide_False by done. destruct (cc, fc) eqn:E. injection E as -> ->.
      apply IH.
Qed.

Lemma dict_set_fresh {V} (d : dict V) (k : coord) (v : V) :
  k ∉ d.*1 → dict_set d k v = d ++ [(k, v)].
Proof.
  induction d as [|[k' v'] d IH]; intros Hk; [done|].
  cbn in *. apply not_elem_of_cons in Hk as [Hne Hk].
  rewrite bool_decide_eq_false_2 by done. by rewrite IH.
Qed.

Lemma dict_comprehension {V} (l : list coord) (f : coord → V) (d : dict V) :
  NoDup (d.*1 ++ l) →
  fold_left (λ d cell, dict_set d cell (f cell)) l d
  = d ++ ((λ cell, (cell, f cell)) <$> l).
Proof.
  revert d. induction l as [|k l IH]; intros d Hnd; cbn [fold_left].
  { by rewrite app_nil_r. }
  apply NoDup_app in Hnd as (Hd & Hdisj & Hl).
  rewrite dict_set_fresh by (intros Hk; eapply Hdisj; [done|by left]).
  rewrite IH.
  - by rewrite <- app_assoc.
  - rewrite fmap_app. cbn. rewrite <- app_assoc. cbn.
    apply NoDup_app. split_and!; [done| |done].
    intros x Hx Hx'. by eapply Hdisj.
Qed.

Lemma elem_of_covered_cells (board : ndarray) (p : coord) :
  p ∈ covered_cells board ↔ in_bounds board p ∧ state_at board p = "covered".
Proof.
  unfold covered_cells. rewrite list_elem_of_filter, elem_of_all_coords. cbn. tauto.
Qed.

Lemma NoDup_covered_cells (board : ndarray) : NoDup (covered_cells board).
Proof. apply NoDup_filter, NoDup_all_coords. Qed.

Lemma calculate_simple_probability_ok (board : ndarray) :
  calculate_simple_probability board None
  = Ok ((λ cell, (cell, uniform_probability board)) <$> covered_cells board).
Proof.
  unfold calculate_simple_probability.
  rewrite (for_in_nested (λ (acc : list coord * Z) p,
    if bool_decide (state_at board p = STATE_COVERED config)
    then (acc.1 ++ [p], acc.2)
    else if bool_decide (state_at board p = STATE_FLAGGED config)
    then (acc.1, acc.2 + 1)
    else acc)).
  2:{ intros r c [cc fc] Hr%elem_of_range Hc%elem_of_range.
      rewrite getitem_in_bounds by done. cbn [mbind res_bind fst snd].
      unfold state_at. cbn [fst snd]. by repeat case_bool_decide. }
  fold (all_coords board). rewrite count_cells_fold. cbn [mbind res_bind app].
  fold (covered_cells board). rewrite Z.add_0_l. fold (flagged_count board).
  destruct (covered_cells board) as [|p l] eqn:Hcov; [done|].
  unfold truediv. rewrite bool_decide_eq_false_2 by (cbn [length]; lia).
  rewrite bool_decide_eq_true_2 by (cbn [length]; lia). cbn [mbind res_bind].
  rewrite (dict_comprehension _ (λ _, _)).
  2:{ cbn [fmap list_fmap app]. rewrite <- Hcov. apply NoDup_covered_cells. }
  cbn [app]. unfold uniform_probability, remaining_mines. rewrite Hcov.
  assert (Z.to_pos (Z.of_nat (length (p :: l))) = Pos.of_nat (length (p :: l))) as ->.
  { cbn [length]. lia. }
  assert ((if bool_decide ((Z.of_nat (shape0 board), Z.of_nat (shape1 board)) = (9, 9))
           then 10
           else if bool_decide ((Z.of_nat (shape0 board), Z.of_nat (shape1 board)) = (16, 16))
           then 40
           else if bool_decide ((Z.of_nat (shape0 board), Z.of_nat (shape1 board)) = (16, 30))
           then 99
           else estimate_total_mines (Z.of_nat (shape0 board)) (Z.of_nat (shape1 board)))
          = default_total_mines board) as ->; [|done].
  unfold default_total_mines. cbn zeta.
  repeat case_bool_decide; try done; exfalso;
    repeat match goal with
    | H : (_, _) = (_, _) |- _ => injection H as ??
    | H : ¬ ((_, _) = (_, _)) |- _ =>
        assert (∀ a b c d : Z, (a, b) ≠ (c, d) → ¬ (a = c ∧ b = d)) as Hpair
          by (intros ???? Hne [-> ->]; by apply Hne);
        apply Hpair in H; clear Hpair
    end; lia.
Qed.

(** *** Counting over configurations *)

Lemma dict_get_set_eq {V} (d : dict V) (k : coord) (v dflt : V) :
  dict_get (dict_set d k v) k dflt = v.
Proof.
  induction d as [|[k' v'] d IH]; cbn.
  - by rewrite bool_decide_eq_true_2.
  - case_bool_decide as Hk; cbn.
    + by rewrite bool_decide_eq_true_2.
    + by rewrite bool_decide_eq_false_2.
Qed.

Lemma dict_get_set_ne {V} (d : dict V) (k k' : coord) (v dflt : V) :
  k ≠ k' → dict_get (dict_set d k v) k' dflt = dict_get d k' dflt.
Proof.
  intros Hne. induction d as [|[k0 v0] d IH]; cbn.
  - by rewrite bool_decide_eq_false_2.
  - case_bool_decide as Hk; cbn.
    + subst k0. by rewrite !bool_decide_eq_false_2.
    + case_bool_decide; [done|apply IH].
Qed.

Lemma dict_set_keys {V} (d : dict V) (k : coord) (v : V) :
  (dict_set d k v).*1 = if decide (k ∈ d.*1) then d.*1 else d.*1 ++ [k].
Proof.
  induction d as [|[k' v'] d IH]; cbn.
  { rewrite decide_False; [done|]. apply not_elem_of_nil. }
  case_bool_decide as Hk; cbn.
  - subst k'. rewrite decide_True; [done|]. by left.
  - rewrite IH. destruct (decide (k ∈ d.*1)) as [Hin|Hin].
    + rewrite decide_True; [done|]. by right.
    + rewrite decide_False; [done|]. intros [?|?]%elem_of_cons; done.
Qed.

Lemma dict_incr_keys_NoDup (l : list coord) (d : dict Z) :
  NoDup d.*1 → NoDup (fold_left dict_incr l d).*1.
Proof.
  revert d. induction l as [|k l IH]; intros d Hd; [done|].
  cbn [fold_left]. apply IH. unfold dict_incr. rewrite dict_set_keys.
  destruct (decide (k ∈ d.*1)); [done|].
  apply NoDup_app. split_and!; [done| |apply NoDup_singleton].
  intros x Hx ->%list_elem_of_singleton. done.
Qed.

Lemma dict_incr_keys (l : list coord) (d : dict Z) (k : coord) :
  k ∈ (fold_left dict_incr l d).*1 ↔ k ∈ d.*1 ∨ k ∈ l.
Proof.
  revert d. induction l as [|k' l IH]; intros d; cbn [fold_left].
  { rewrite elem_of_nil. tauto. }
  rewrite IH. unfold dict_incr. rewrite dict_set_keys, elem_of_cons.
  destruct (decide (k' ∈ d.*1)) as [Hin|Hin].
  - split; [tauto|]. intros [?|[->|?]]; tauto.
  - rewrite elem_of_app, list_elem_of_singleton. tauto.
Qed.

Lemma dict_incr_get (l : list coord) (d : dict Z) (k : coord) :
  dict_get (fold_left dict_incr l d) k 0
  = dict_get d k 0 + Z.of_nat (length (filter (λ x, x = k) l)).
Proof.
  revert d. induction l as [|k' l IH]; intros d; cbn [fold_left].
  { rewrite filter_nil. cbn. lia. }
  rewrite IH, filter_cons. unfold dict_incr.
  destruct (decide (k' = k)) as [->|Hne].
  - rewrite dict_get_set_eq. cbn [length]. lia.
  - by rewrite dict_get_set_ne.
Qed.

Lemma fold_left_bind {A B S} (f : S → B → S) (h : A → list B) (l : list A) (s : S) :
  fold_left (λ s x, fold_left f (h x) s) l s = fold_left f (l ≫= h) s.
Proof.
  revert s. induction l as [|x l IH]; intros s; [done|].
  rewrite bind_cons, fold_left_app. apply IH.
Qed.

Lemma count_NoDup (l : list coord) (k : coord) :
  NoDup l → length (filter (λ x, x = k) l) = if decide (k ∈ l) then 1%nat else 0%nat.
Proof.
  induction 1 as [|x l Hx Hl IH].
  { rewrite decide_False; [done|]. apply not_elem_of_nil. }
  rewrite filter_cons. destruct (decide (x = k)) as [->|Hne].
  - rewrite decide_True by left. cbn [length]. rewrite IH.
    by rewrite decide_False.
  - rewrite IH. destruct (decide (k ∈ l)) as [Hin|Hin].
    + rewrite decide_True; [done|]. by right.
    + rewrite decide_False; [done|]. intros [?|?]%elem_of_cons; done.
Qed.

Lemma count_in_configurations (vs : list (gset coord)) (k : coord) :
  length (filter (λ x, x = k) (vs ≫= set_iter))
  = length (filter (λ v : gset coord, k ∈ v) vs).
Proof.
  induction vs as [|v vs IH]; [done|].
  rewrite bind_cons, filter_app, length_app, IH, filter_cons.
  rewrite count_NoDup by apply NoDup_set_iter.
  destruct (decide (k ∈ v)) as [Hin|Hin].
  - rewrite decide_True by (by apply elem_of_set_iter). done.
  - rewrite decide_False by (by rewrite elem_of_set_iter). done.
Qed.

Lemma calculate_probabilities_counts
    (board : ndarray) (constraints : list (gset coord * Z)) :
  build_constraint_set board = Ok constraints →
  constraints ≠ [] →
  let valid_configs :=
    enumerate_valid_configurations constraints (MAX_CONFIGURATIONS config) in
  valid_configs ≠ [] →
  ∃ probabilities,
    calculate_probabilities board = Ok probabilities
    ∧ NoDup probabilities.*1
    ∧ (∀ cell, cell ∈ probabilities.*1 ↔ ∃ v, v ∈ valid_configs ∧ cell ∈ v)
    ∧ (∀ cell p, (cell, p) ∈ probabilities →
         p = Qmake (Z.of_nat (length (filter (λ v : gset coord, cell ∈ v) valid_configs)))
                   (Pos.of_nat (length valid_configs)))
    ∧ (∀ cell, cell ∈ frontier constraints →
         (∀ v, v ∈ valid_configs → cell ∉ v) → cell ∉ probabilities.*1).
Proof.
  intros Hcs Hne valid_configs Hvs.
  unfold calculate_probabilities. rewrite Hcs. cbn [mbind res_bind].
  destruct constraints as [|c0 cs]; [done|].
  fold valid_configs. destruct valid_configs as [|v0 vs] eqn:Hvc; [done|].
  rewrite <- Hvc. clear Hvs.
  rewrite (fold_left_bind dict_incr set_iter).
  set (mine_counts := fold_left dict_incr (valid_configs ≫= set_iter) []).
  assert (NoDup mine_counts.*1) as Hnd by (apply dict_incr_keys_NoDup; constructor).
  assert (0 < Z.of_nat (length valid_configs)) as Hpos by (rewrite Hvc; cbn; lia).
  rewrite (for_in_ok (λ d cell, dict_set d cell
    (Qmake (dict_get mine_counts cell 0) (Z.to_pos (Z.of_nat (length valid_configs)))))).
  2:{ intros cell d _. unfold truediv.
      rewrite bool_decide_eq_false_2, bool_decide_eq_true_2 by lia. done. }
  rewrite (dict_comprehension _ (λ cell,
    Qmake (dict_get mine_counts cell 0) (Z.to_pos (Z.of_nat (length valid_configs))))) by done.
  cbn [app]. eexists. split; [done|].
  assert (∀ cell, cell ∈ mine_counts.*1 ↔ ∃ v, v ∈ valid_configs ∧ cell ∈ v) as Hkeys.
  { intros cell. unfold mine_counts. rewrite dict_incr_keys, list_elem_of_bind.
    cbn. rewrite elem_of_nil. setoid_rewrite elem_of_set_iter. naive_solver. }
  rewrite <- list_fmap_compose. cbn. rewrite list_fmap_id.
  split_and!; [done|done| |].
  - intros cell p (cell' & [= -> ->] & Hin)%list_elem_of_fmap.
    unfold mine_counts. rewrite dict_incr_get, count_in_configurations. cbn.
    f_equal. lia.
  - intros cell _ Hnot (v & Hv & Hin)%Hkeys. by eapply Hnot.
Qed.

(** C4: when the board gives at least one constraint and the
    enumeration at least one configuration, [calculate_probabilities]
    returns a map whose keys are exactly the coordinates that occur in
    some enumerated configuration, each once, and whose value at a
    coordinate is the number of configurations that contain it divided
    by the number of configurations; a coordinate that occurs in no
    configuration is not in the map. *)
Theorem calculate_probabilities_enumerated
    (board : ndarray) (constraints : list (gset coord * Z)) :
  build_constraint_set board = Ok constraints →
  constraints ≠ [] →
  let valid_configs :=
    enumerate_valid_configurations constraints (MAX_CONFIGURATIONS config) in
  valid_configs ≠ [] →
  ∃ probabilities,
    calculate_probabilities board = Ok probabilities
    ∧ NoDup probabilities.*1
    ∧ (∀ cell, cell ∈ probabilities.*1 ↔ ∃ v, v ∈ valid_configs ∧ cell ∈ v)
    ∧ (∀ cell p, (cell, p) ∈ probabilities →
         p = Qmake (Z.of_nat (length (filter (λ v : gset coord, cell ∈ v) valid_configs)))
                   (Pos.of_nat (length valid_configs)))
    ∧ (∀ cell, cell ∈ frontier constraints →
         (∀ v, v ∈ valid_configs → cell ∉ v) → cell ∉ probabilities.*1).
Proof. apply calculate_probabilities_counts. Qed.

(** *** The safest cell *)

Lemma min_by_value_spec (x : coord * Q) (l : list (coord * Q)) :
  min_by_value x l ∈ x :: l
  ∧ ∀ y, y ∈ x :: l → ((min_by_value x l).2 <= y.2)%Q.
Proof.
  unfold min_by_value. revert x. induction l as [|a l IH]; intros x; cbn [fold_left].
  { split; [by left|]. intros y ->%list_elem_of_singleton. apply Qle_refl. }
  set (x' := if Qlt_bool a.2 x.2 then a else x).
  destruct (IH x') as [Hin Hmin]. split.
  - apply elem_of_cons in Hin as [->|Hin]; [|by do 2 right].
    unfold x'. destruct (Qlt_bool a.2 x.2); [right|]; by left.
  - assert ((x'.2 <= x.2)%Q ∧ (x'.2 <= a.2)%Q) as [Hx Ha].
    { unfold x', Qlt_bool. destruct (Qle_bool x.2 a.2) eqn:E; cbn.
      - apply Qle_bool_iff in E. split; [apply Qle_refl|done].
      - split; [|apply Qle_refl]. apply Qlt_le_weak, Qnot_le_lt.
        intros Hle. apply Qle_bool_iff in Hle. congruence. }
    pose proof (Hmin x' ltac:(by left)) as Hm.
    intros y [->|[->|Hy]%elem_of_cons]%elem_of_cons.
    + by eapply Qle_trans.
    + by eapply Qle_trans.
    + apply Hmin. by right.
Qed.

(** *** The guess *)

Lemma for_eachM_app {A R S} (l1 l2 : list A) (body : A → S → res (flow R S)) (s : S) :
  for_eachM (l1 ++ l2) body s
  = f ← for_eachM l1 body s;
    match f with
    | Return r => Ok (Return r)
    | Next s' => for_eachM l2 body s'
    end.
Proof.
  revert s. induction l1 as [|x l1 IH]; intros s; [done|].
  cbn. destruct (body x s) as [[r|s']|e]; cbn; [done| |done]. apply IH.
Qed.

Lemma for_eachM_bind {A B R S} (h : A → list B) (l : list A)
    (body : B → S → res (flow R S)) (s : S) :
  for_eachM l (λ x s, for_eachM (h x) body s) s = for_eachM (l ≫= h) body s.
Proof.
  revert s. induction l as [|x l IH]; intros s; [done|].
  rewrite bind_cons, for_eachM_app. cbn.
  destruct (for_eachM (h x) body s) as [[r|s']|e]; cbn; [done| |done]. apply IH.
Qed.

Lemma for_eachM_ext {A R S} (b1 b2 : A → S → res (flow R S)) (l : list A) (s : S) :
  (∀ x s, b1 x s = b2 x s) → for_eachM l b1 s = for_eachM l b2 s.
Proof.
  intros Hb. revert s. induction l as [|x l IH]; intros s; [done|].
  cbn. rewrite Hb. destruct (b2 x s) as [[r|s']|e]; cbn; [done| |done]. apply IH.
Qed.

Lemma look_in_bounds (board : ndarray) (p : coord) :
  in_bounds board p →
  look board p ()
  = Ok (if bool_decide (state_at board p = STATE_COVERED config)
        then Return [(p, "reveal")] else Next ()).
Proof. intros Hp. unfold look. by rewrite getitem_in_bounds. Qed.

Lemma for_eachM_look (board : ndarray) (l : list coord) :
  Forall (in_bounds board) l →
  for_eachM l (look board) ()
  = Ok (match first_covered board l with
        | Some p => Return [(p, "reveal")]
        | None => Next ()
        end).
Proof.
  unfold first_covered. induction 1 as [|p l Hp Hl IH]; [done|].
  cbn [for_eachM]. rewrite look_in_bounds by done.
  cbn [mbind res_bind]. rewrite filter_cons. case_bool_decide as Hc.
  - by rewrite decide_True.
  - rewrite decide_False by done. apply IH.
Qed.

Lemma corners_loop (board : ndarray) (corners : list coord) :
  for_eachM corners (λ '(r, c) _,
    st ← getitem board (r, c);
    Ok (if bool_decide (st = STATE_COVERED config)
        then Return [((r, c), "reveal")] else Next ())) ()
  = for_eachM corners (look board) ().
Proof. apply for_eachM_ext. by intros [r c] []. Qed.

Lemma edges_loop (board : ndarray) (l : list Z) :
  for_eachM l (λ c _,
    st ← getitem board (0, c);
    if bool_decide (st = STATE_COVERED config)
    then Ok (Return [((0, c), "reveal")])
    else
      st ← getitem board (Z.of_nat (shape0 board) - 1, c);
      Ok (if bool_decide (st = STATE_COVERED config)
          then Return [((Z.of_nat (shape0 board) - 1, c), "reveal")] else Next ())) ()
  = for_eachM (c ← l; [(0, c); (Z.of_nat (shape0 board) - 1, c)]) (look board) ().
Proof.
  rewrite <- (for_eachM_bind (λ c, [(0, c); (Z.of_nat (shape0 board) - 1, c)])).
  apply for_eachM_ext. intros c []. cbn [for_eachM]. unfold look.
  destruct (getitem board (0, c)) as [st|e]; cbn [mbind res_bind]; [|done].
  case_bool_decide; cbn [mbind res_bind]; [done|].
  destruct (getitem board (Z.of_nat (shape0 board) - 1, c)) as [st'|e];
    cbn [mbind res_bind]; [|done].
  by case_bool_decide.
Qed.

Lemma grid_loop (board : ndarray) (l1 l2 : list Z) :
  for_eachM l1 (λ r _,
    for_eachM l2 (λ c _,
      st ← getitem board (r, c);
      Ok (if bool_decide (st = STATE_COVERED config)
          then Return [((r, c), "reveal")] else Next ())) ()) ()
  = for_eachM (r ← l1; c ← l2; [(r, c)]) (look board) ().
Proof.
  rewrite <- (for_eachM_bind (λ r, c ← l2; [(r, c)])).
  apply for_eachM_ext. intros r [].
  rewrite <- (for_eachM_bind (λ c, [(r, c)])).
  apply for_eachM_ext. intros c []. cbn [for_eachM]. unfold look.
  destruct (getitem board (r, c)) as [st|e]; cbn [mbind res_bind]; [|done].
  by case_bool_decide.
Qed.

Lemma _make_guess_unfold (board : ndarray) :
  _make_guess board
  = f ← for_eachM (guess_order board) (look board) ();
    Ok (match f with
        | Return moves => moves
        | Next _ => []
        end).
Proof.
  unfold _make_guess, guess_order. cbn zeta.
  rewrite corners_loop, edges_loop, grid_loop. fold (all_coords board).
  rewrite for_eachM_app.
  destruct (for_eachM [_; _; _; _] (look board) ()) as [[moves|[]]|e];
    cbn [mbind res_bind]; [done| |done].
  rewrite for_eachM_app.
  destruct (for_eachM (_ ≫= _) (look board) ()) as [[moves|[]]|e];
    cbn [mbind res_bind]; [done| |done].
  by destruct (for_eachM (all_coords board) (look board) ()) as [[moves|[]]|e].
Qed.

Lemma guess_order_in_bounds (board : ndarray) :
  (0 < shape0 board)%nat → (0 < shape1 board)%nat →
  Forall (in_bounds board) (guess_order board).
Proof.
  intros Hr Hc. unfold guess_order. cbn zeta.
  rewrite !Forall_app, !Forall_cons. unfold in_bounds. cbn [fst snd].
  split_and!; try lia.
  - constructor.
  - apply Forall_forall. intros p (c & Hp & Hcr%elem_of_range)%list_elem_of_bind.
    rewrite !elem_of_cons, elem_of_nil in Hp.
    destruct Hp as [->|[->|[]]]; cbn; lia.
  - apply Forall_forall. intros p. by rewrite elem_of_all_coords.
Qed.

(** On a board with at least one cell, [_make_guess] reveals the first
    covered cell in [guess_order], and returns no move when no cell is
    covered. *)
Lemma _make_guess_ok (board : ndarray) :
  (0 < shape0 board)%nat → (0 < shape1 board)%nat →
  _make_guess board
  = Ok (match first_covered board (guess_order board) with
        | Some p => [(p, "reveal")]
        | None => []
        end).
Proof.
  intros Hr Hc. rewrite _make_guess_unfold, for_eachM_look
    by by apply guess_order_in_bounds.
  cbn [mbind res_bind]. by destruct (first_covered _ _).
Qed.

Lemma getitem_empty (board : ndarray) (p : coord) :
  shape0 board = 0%nat ∨ shape1 board = 0%nat →
  getitem board p = Raise IndexError.
Proof.
  intros H0. unfold getitem, normalize_index.
  destruct H0 as [H0|H0]; rewrite H0.
  - rewrite (bool_decide_eq_false_2 (0 ≤ p.1 < _)) by lia.
    by rewrite (bool_decide_eq_false_2 (- _ ≤ p.1 < 0)) by lia.
  - rewrite (bool_decide_eq_false_2 (0 ≤ p.2 < _)) by lia.
    rewrite (bool_decide_eq_false_2 (- _ ≤ p.2 < 0)) by lia.
    by repeat case_bool_decide.
Qed.

(** On a board without cells the first look, at (0, 0), fails. *)
Lemma _make_guess_empty (board : ndarray) :
  shape0 board = 0%nat ∨ shape1 board = 0%nat →
  _make_guess board = Raise IndexError.
Proof.
  intros H0. rewrite _make_guess_unfold. unfold guess_order. cbn zeta.
  cbn [app for_eachM].
  assert (look board (0, 0) () = Raise IndexError) as ->; [|done].
  unfold look. by rewrite getitem_empty.
Qed.

(** *** The solver *)

Lemma frontier_constraints_covered (board : ndarray) (cell : coord) :
  cell ∈ frontier (numbered_cells board ≫= cell_constraint board) →
  in_bounds board cell ∧ state_at board cell = "covered".
Proof.
  unfold frontier. rewrite elem_of_union_list.
  intros (X & HX & Hcell). apply list_elem_of_fmap in HX as ([X' n] & -> & HX).
  apply list_elem_of_bind in HX as (p & HX & _). unfold cell_constraint in HX.
  case_bool_decide; [|by apply elem_of_nil in HX].
  apply list_elem_of_singleton in HX as [= -> ->]. cbn in Hcell.
  apply elem_of_covered_neighbors in Hcell. tauto.
Qed.

Lemma calculate_probabilities_keys (board : ndarray) :
  ∃ probabilities,
    calculate_probabilities board = Ok probabilities
    ∧ ∀ cell, cell ∈ probabilities.*1 →
        in_bounds board cell ∧ state_at board cell = "covered".
Proof.
  pose proof (build_constraint_set_ok board) as Hcs.
  assert (∃ probabilities,
    calculate_simple_probability board None = Ok probabilities
    ∧ ∀ cell, cell ∈ probabilities.*1 →
        in_bounds board cell ∧ state_at board cell = "covered") as Hsimple.
  { eexists. split; [apply calculate_simple_probability_ok|].
    intros cell. rewrite <- list_fmap_compose. cbn. rewrite list_fmap_id.
    apply elem_of_covered_cells. }
  destruct (numbered_cells board ≫= cell_constraint board) as [|c0 cs] eqn:Hcs'.
  { unfold calculate_probabilities. by rewrite Hcs. }
  destruct (enumerate_valid_configurations (c0 :: cs) (MAX_CONFIGURATIONS config))
    as [|v0 vs] eqn:Hvs.
  { unfold calculate_probabilities. rewrite Hcs. cbn [mbind res_bind]. by rewrite Hvs. }
  destruct (calculate_probabilities_counts board (c0 :: cs) Hcs ltac:(done))
    as (pm & Hpm & _ & Hkeys & _); [by rewrite Hvs|].
  exists pm. split; [done|]. intros cell (v & Hv & Hcell)%Hkeys.
  apply frontier_constraints_covered. rewrite Hcs'.
  pose proof (enumerate_valid (c0 :: cs) (MAX_CONFIGURATIONS config)) as Hvalid.
  rewrite Forall_forall in Hvalid. destruct (Hvalid v Hv) as [Hsub _]. by apply Hsub.
Qed.

Lemma logic_moves_covered (board : ndarray) (m : move) :
  m ∈ (numbered_cells board ≫= λ p, flag_moves board p ++ reveal_moves board p) →
  (in_bounds board m.1 ∧ state_at board m.1 = "covered")
  ∧ (m.2 = "flag" ∨ m.2 = "reveal").
Proof.
  intros (p & Hm & _)%list_elem_of_bind. unfold flag_moves, reveal_moves in Hm.
  apply elem_of_app in Hm as [Hm|Hm]; case_bool_decide;
    try (by apply elem_of_nil in Hm);
    apply list_elem_of_fmap in Hm as (q & -> & Hq%elem_of_set_iter);
    apply elem_of_covered_neighbors in Hq; cbn; tauto.
Qed.

Lemma first_covered_Some (board : ndarray) (l : list coord) (p : coord) :
  first_covered board l = Some p → p ∈ l ∧ state_at board p = "covered".
Proof.
  unfold first_covered. intros Hp%head_Some_elem_of.
  apply list_elem_of_filter in Hp. tauto.
Qed.

(** C5: with the default configuration, [solve] returns the moves of the
    logic rules whenever there are any; when there are none and the
    probability map is not empty, it returns exactly one move, a reveal
    on a coordinate of the map whose probability no other coordinate
    undercuts; on the map {(0,0): 0.8, (0,1): 0.2, (1,0): 0.5} the
    safest cell is (0,1). *)
Theorem solve_phases (self : MinesweeperSolver) (board : ndarray) :
  (ENABLE_LOGIC_RULES config = true ∧ ENABLE_PROBABILITY_CALCULATION config = true)
  ∧ (∀ moves, apply_logic_rules board = Ok moves → moves ≠ [] →
       (solve self board).2 = Ok moves)
  ∧ (∀ probabilities,
       apply_logic_rules board = Ok [] →
       calculate_probabilities board = Ok probabilities →
       probabilities ≠ [] →
       ∃ cell p,
         (solve self board).2 = Ok [(cell, "reveal")]
         ∧ (cell, p) ∈ probabilities
         ∧ ∀ cell' p', (cell', p') ∈ probabilities → (p <= p')%Q)
  ∧ get_safest_cell
      [((0, 0), Qmake 8 10); ((0, 1), Qmake 2 10); ((1, 0), Qmake 5 10)]
    = Some (0, 1).
Proof.
  split_and!; [done|done| | |done].
  - intros moves Hmoves Hne. unfold solve. cbn [snd ENABLE_LOGIC_RULES config].
    rewrite Hmoves. cbn [mbind res_bind]. by destruct moves.
  - intros probabilities Hmoves Hpm Hne. unfold solve.
    cbn [snd ENABLE_LOGIC_RULES ENABLE_PROBABILITY_CALCULATION config].
    rewrite Hmoves. cbn [mbind res_bind]. rewrite Hpm. cbn [mbind res_bind].
    destruct probabilities as [|x l]; [done|]. cbn [get_safest_cell mbind res_bind].
    destruct (min_by_value_spec x l) as [Hin Hmin].
    exists (min_by_value x l).1, (min_by_value x l).2. split; [done|].
    split; [by destruct (min_by_value x l)|].
    intros cell' p' Hin'. by apply (Hmin (cell', p')).
Qed.

Lemma solve_closed_form (self : MinesweeperSolver) (board : ndarray) :
  (solve self board).2
  = match numbered_cells board ≫= λ p, flag_moves board p ++ reveal_moves board p with
    | m :: moves => Ok (m :: moves)
    | [] =>
        probabilities ← calculate_probabilities board;
        match probabilities with
        | [] => _make_guess board
        | x :: l => Ok [((min_by_value x l).1, "reveal")]
        end
    end.
Proof.
  unfold solve. cbn [snd ENABLE_LOGIC_RULES ENABLE_PROBABILITY_CALCULATION config].
  rewrite apply_logic_rules_ok.
  destruct (numbered_cells board ≫= _) as [|m moves]; cbn [mbind res_bind]; [|done].
  destruct (calculate_probabilities board) as [[|x l]|e]; by cbn.
Qed.

(** C10: on a board with at least one cell [solve] returns a list of
    moves, and on no board does it return anything else than moves
    whose coordinate lies inside the board, on a cell that is covered,
    so that reading the board there succeeds; each move is a reveal or
    a flag. *)
Theorem solve_moves_in_bounds_covered (self : MinesweeperSolver) (board : ndarray) :
  ((0 < shape0 board)%nat → (0 < shape1 board)%nat →
   ∃ moves, (solve self board).2 = Ok moves)
  ∧ ∀ moves, (solve self board).2 = Ok moves →
      Forall (λ m : move,
        (0 ≤ m.1.1 < Z.of_nat (shape0 board) ∧ 0 ≤ m.1.2 < Z.of_nat (shape1 board))
        ∧ getitem board m.1 = Ok "covered"
        ∧ (m.2 = "reveal" ∨ m.2 = "flag")) moves.
Proof.
  rewrite solve_closed_form.
  assert (∀ m : move, in_bounds board m.1 ∧ state_at board m.1 = "covered" →
    (0 ≤ m.1.1 < Z.of_nat (shape0 board) ∧ 0 ≤ m.1.2 < Z.of_nat (shape1 board))
    ∧ getitem board m.1 = Ok "covered") as Hgood.
  { intros m [Hb Hst]. split; [done|]. by rewrite getitem_in_bounds, Hst. }
  destruct (numbered_cells board ≫= _) as [|m0 moves0] eqn:Hlogic.
  - destruct (calculate_probabilities_keys board) as (pm & -> & Hkeys).
    cbn [mbind res_bind]. destruct pm as [|x l].
    + split.
      * intros Hr Hc. rewrite _make_guess_ok by done. eauto.
      * intros moves Hmoves.
        destruct (shape0 board) as [|r] eqn:Hr;
          [by rewrite _make_guess_empty in Hmoves by auto|].
        destruct (shape1 board) as [|c] eqn:Hc;
          [by rewrite _make_guess_empty in Hmoves by auto|].
        rewrite _make_guess_ok in Hmoves by lia.
        destruct (first_covered _ _) as [p|] eqn:Hp; injection Hmoves as <-;
          [|constructor].
        apply first_covered_Some in Hp as [Hin Hst].
        pose proof (guess_order_in_bounds board ltac:(lia) ltac:(lia)) as Hall.
        rewrite Forall_forall in Hall. apply Forall_singleton.
        destruct (Hgood (p, "reveal")) as [? ?]; [cbn; auto|].
        split; [done|]. split; [done|by left].
    + split; [eauto|]. intros moves [= <-].
      destruct (min_by_value_spec x l) as [Hin _]. apply Forall_singleton.
      destruct (Hgood ((min_by_value x l).1, "reveal")) as [? ?];
        [|split; [done|]; split; [done|by left]].
      cbn [fst]. apply Hkeys. apply list_elem_of_fmap. by exists (min_by_value x l).
  - split; [eauto|]. intros moves [= <-]. rewrite <- Hlogic.
    apply Forall_forall. intros m Hm%logic_moves_covered.
    destruct Hm as [Hm Ha]. split; [by apply Hgood|]. split; [by apply Hgood|tauto].
Qed.

(** *** The fallback on boards of no known size *)

Lemma length_bind_const {A B} (h : A → list B) (l : list A) (m : nat) :
  (∀ x, length (h x) = m) → length (l ≫= h) = (length l * m)%nat.
Proof.
  intros Hh. induction l as [|x l IH]; [done|].
  rewrite bind_cons, length_app, Hh, IH. done.
Qed.

Lemma length_range (n : nat) : length (range (Z.of_nat n)) = n.
Proof. unfold range. by rewrite length_fmap, length_seq, Nat2Z.id. Qed.

Lemma length_all_coords (board : ndarray) :
  length (all_coords board) = (shape0 board * shape1 board)%nat.
Proof.
  unfold all_coords.
  rewrite (length_bind_const _ _ (shape1 board)), length_range; [done|].
  intros r. rewrite (length_bind_const _ _ 1%nat), length_range; [lia|done].
Qed.

Lemma filter_all {A} (P : A → Prop) `{!∀ x, Decision (P x)} (l : list A) :
  Forall P l → filter P l = l.
Proof.
  induction 1 as [|x l Hx Hl IH]; [done|]. by rewrite filter_cons_True, IH.
Qed.

Lemma filter_none {A} (P : A → Prop) `{!∀ x, Decision (P x)} (l : list A) :
  Forall (λ x, ¬ P x) l → filter P l = [].
Proof.
  induction 1 as [|x l Hx Hl IH]; [done|]. by rewrite filter_cons_False.
Qed.

(** On boards of fewer than 2500 cells the integer part of the binary64
    product is the integer part of the exact product. *)
Lemma estimate_total_mines_floor (rows cols : Z) :
  0 ≤ rows * cols < 2500 →
  estimate_total_mines rows cols = 15 * (rows * cols) / 100.
Proof.
  intros Hn. unfold estimate_total_mines. generalize dependent (rows * cols).
  intros n Hn.
  assert (forallb (λ k, int_of_float (fmul (float_of_int k) float_0_15)
                        =? 15 * k / 100) (range 2500) = true) as Hall
    by (vm_compute; reflexivity).
  rewrite forallb_forall in Hall. apply Z.eqb_eq, Hall.
  apply list_elem_of_In, elem_of_range. lia.
Qed.

(** C6, as amended: without constraints, or without any valid
    configuration, [calculate_probabilities] is the uniform estimate;
    the uniform estimate gives every covered cell, in row-major order,
    the same probability, [max(0, total - flagged) / covered]; the map
    is empty when no cell is covered; the total is 10 on a 9 by 9
    board, 40 on 16 by 16, 99 on 16 by 30, and otherwise the integer
    part of [(rows * cols) * 0.15], truncated and not rounded; an
    all-covered 9 by 9 board gives every cell 10/81. *)
Theorem uniform_fallback (board : ndarray) :
  (build_constraint_set board = Ok [] →
   calculate_probabilities board = calculate_simple_probability board None)
  ∧ (∀ constraints,
       build_constraint_set board = Ok constraints →
       enumerate_valid_configurations constraints (MAX_CONFIGURATIONS config) = [] →
       calculate_probabilities board = calculate_simple_probability board None)
  ∧ calculate_simple_probability board None
    = Ok ((λ cell, (cell, uniform_probability board)) <$> covered_cells board)
  ∧ (∀ cell, cell ∈ covered_cells board ↔
             in_bounds board cell ∧ state_at board cell = "covered")
  ∧ StronglySorted row_major (covered_cells board)
  ∧ uniform_probability board
    = Qmake (Z.max 0 (default_total_mines board - flagged_count board))
        (Pos.of_nat (length (covered_cells board)))
  ∧ (covered_cells board = [] → calculate_simple_probability board None = Ok [])
  ∧ (shape0 board = 9%nat → shape1 board = 9%nat → default_total_mines board = 10)
  ∧ (shape0 board = 16%nat → shape1 board = 16%nat → default_total_mines board = 40)
  ∧ (shape0 board = 16%nat → shape1 board = 30%nat → default_total_mines board = 99)
  ∧ ((shape0 board, shape1 board) ∉ [(9, 9); (16, 16); (16, 30)]%nat →
     default_total_mines board
     = int_of_float (fmul (float_of_int (Z.of_nat (shape0 board) * Z.of_nat (shape1 board)))
                       float_0_15)
     ∧ (Z.of_nat (shape0 board) * Z.of_nat (shape1 board) < 2500 →
        default_total_mines board
        = 15 * (Z.of_nat (shape0 board) * Z.of_nat (shape1 board)) / 100))
  ∧ (shape0 board = 9%nat → shape1 board = 9%nat →
     (∀ cell, in_bounds board cell → state_at board cell = "covered") →
     calculate_probabilities board
     = Ok ((λ cell, (cell, Qmake 10 81)) <$> all_coords board)).
Proof.
  assert (build_constraint_set board = Ok [] →
    calculate_probabilities board = calculate_simple_probability board None) as Hnone.
  { intros Hcs. unfold calculate_probabilities. by rewrite Hcs. }
  split_and!.
  - done.
  - intros constraints Hcs Hvs. unfold calculate_probabilities. rewrite Hcs.
    cbn [mbind res_bind]. rewrite Hvs. by destruct constraints.
  - apply calculate_simple_probability_ok.
  - apply elem_of_covered_cells.
  - apply StronglySorted_filter, all_coords_sorted.
  - done.
  - intros Hcov. by rewrite calculate_simple_probability_ok, Hcov.
  - intros H0 H1. unfold default_total_mines. by rewrite H0, H1.
  - intros H0 H1. unfold default_total_mines. by rewrite H0, H1.
  - intros H0 H1. unfold default_total_mines. by rewrite H0, H1.
  - intros Hsize. rewrite !elem_of_cons, elem_of_nil in Hsize.
    assert (default_total_mines board
            = estimate_total_mines (Z.of_nat (shape0 board)) (Z.of_nat (shape1 board)))
      as ->.
    { unfold default_total_mines. cbn zeta.
      repeat case_bool_decide; try done; exfalso; apply Hsize;
        destruct (shape0 board), (shape1 board); try lia;
        [left|right; left|right; right; left]; f_equal; lia. }
    split; [done|]. intros Hsmall. apply estimate_total_mines_floor.
    split; [apply Z.mul_nonneg_nonneg; lia|done].
  - intros H0 H1 Hall.
    assert (numbered_cells board = []) as Hnum.
    { unfold numbered_cells. apply filter_none, Forall_forall.
      intros p Hp%elem_of_all_coords. by rewrite (Hall p Hp). }
    rewrite Hnone by (by rewrite build_constraint_set_ok, Hnum).
    rewrite calculate_simple_probability_ok.
    assert (covered_cells board = all_coords board) as Hcov.
    { unfold covered_cells. apply filter_all, Forall_forall.
      intros p Hp%elem_of_all_coords. by apply Hall. }
    assert (flagged_count board = 0) as Hflag.
    { unfold flagged_count. rewrite filter_none; [done|]. apply Forall_forall.
      intros p Hp%elem_of_all_coords. by rewrite (Hall p Hp). }
    unfold uniform_probability, remaining_mines, default_total_mines.
    rewrite Hcov, Hflag, length_all_coords, H0, H1. done.
Qed.

(** *** The guess on boards with cells *)

Lemma first_covered_app (board : ndarray) (l1 l2 : list coord) :
  first_covered board (l1 ++ l2)
  = match first_covered board l1 with
    | Some p => Some p
    | None => first_covered board l2
    end.
Proof.
  unfold first_covered. rewrite filter_app.
  by destruct (filter _ l1).
Qed.

Lemma first_covered_None (board : ndarray) (l : list coord) :
  first_covered board l = None ↔ ∀ p, p ∈ l → state_at board p ≠ "covered".
Proof.
  unfold first_covered. rewrite head_None. split.
  - intros Hnil p Hp Hc. eapply filter_nil_not_elem_of; [exact Hnil| |exact Hp]. done.
  - intros Hall. apply filter_none, Forall_forall. intros p Hp. by apply Hall.
Qed.

(** X9: on a board without cells [_make_guess] raises [IndexError]; on
    a board with cells it returns the empty list when no cell is
    covered, and otherwise exactly one reveal, on a covered cell of the
    board; that cell is a corner whenever a corner is covered, (0, 0)
    whenever (0, 0) is covered, and in the top or the bottom row
    whenever one of these holds a covered cell. *)
Theorem _make_guess_spec (board : ndarray) :
  (shape0 board = 0%nat ∨ shape1 board = 0%nat → _make_guess board = Raise IndexError)
  ∧ ((0 < shape0 board)%nat → (0 < shape1 board)%nat →
     let rows := Z.of_nat (shape0 board) in
     let cols := Z.of_nat (shape1 board) in
     let corners := [(0, 0); (0, cols - 1); (rows - 1, 0); (rows - 1, cols - 1)] in
     (covered_cells board = [] → _make_guess board = Ok [])
     ∧ (covered_cells board ≠ [] →
        ∃ p, _make_guess board = Ok [(p, "reveal")]
             ∧ p ∈ covered_cells board
             ∧ (state_at board (0, 0) = "covered" → p = (0, 0))
             ∧ ((∃ q, q ∈ corners ∧ state_at board q = "covered") → p ∈ corners)
             ∧ ((∃ q, in_bounds board q ∧ (q.1 = 0 ∨ q.1 = rows - 1)
                      ∧ state_at board q = "covered") →
                p.1 = 0 ∨ p.1 = rows - 1))).
Proof.
  split; [apply _make_guess_empty|].
  intros Hr Hc rows cols corners. rewrite _make_guess_ok by done.
  pose proof (guess_order_in_bounds board Hr Hc) as Hin. rewrite Forall_forall in Hin.
  split.
  - intros Hnone.
    rewrite (proj2 (first_covered_None board (guess_order board))); [done|].
    intros p Hp Hcov.
    assert (p ∈ covered_cells board) as Hp' by (apply elem_of_covered_cells; auto).
    rewrite Hnone in Hp'. by apply elem_of_nil in Hp'.
  - intros Hsome.
    destruct (first_covered board (guess_order board)) as [p|] eqn:Hp.
    2:{ destruct Hsome. unfold covered_cells. apply filter_none, Forall_forall.
        intros q Hq. apply (proj1 (first_covered_None _ _) Hp).
        unfold guess_order. rewrite !elem_of_app. auto. }
    exists p. split; [done|].
    pose proof Hp as [Hpin Hpcov]%first_covered_Some.
    split; [apply elem_of_covered_cells; auto|].
    unfold guess_order in Hp. cbn zeta in Hp. fold rows cols corners in Hp.
    rewrite first_covered_app in Hp.
    split_and!.
    + intros H00. unfold first_covered, corners in Hp.
      rewrite filter_cons_True in Hp by done. cbn in Hp. congruence.
    + intros (q & Hq & Hqcov).
      destruct (first_covered board corners) as [p'|] eqn:Hcorner.
      * injection Hp as <-. by apply first_covered_Some in Hcorner as [? _].
      * destruct (proj1 (first_covered_None _ _) Hcorner q Hq Hqcov).
    + intros (q & Hq & Hrow & Hqcov).
      destruct (first_covered board corners) as [p'|] eqn:Hcorner.
      * injection Hp as <-. apply first_covered_Some in Hcorner as [Hp' _].
        unfold corners in Hp'. rewrite !elem_of_cons, elem_of_nil in Hp'.
        destruct_or!; try done; simplify_eq; cbn; auto.
      * rewrite first_covered_app in Hp.
        destruct (first_covered board (_ ≫= _)) as [p'|] eqn:Hedge.
        -- injection Hp as <-. apply first_covered_Some in Hedge as [Hp' _].
           apply list_elem_of_bind in Hp' as (c & Hp' & _).
           rewrite !elem_of_cons, elem_of_nil in Hp'.
           destruct_or!; try done; simplify_eq; cbn; auto.
        -- exfalso. apply (proj1 (first_covered_None _ _) Hedge q); [|done].
           apply list_elem_of_bind. exists q.2. destruct Hq as [Hq1 Hq2].
           split; [|by apply elem_of_range].
           rewrite !elem_of_cons. destruct q as [q1 q2]. cbn in *.
           destruct Hrow as [-> | ->]; auto.
Qed.

(** *** The stored board *)


(** *** Ranges of the probabilities *)

(** X11: every value the uniform fallback gives is the same
    non-negative number; it is at most 1 exactly when the mines that
    remain, [max(0, total - flagged)], are no more than the covered
    cells. *)
Theorem calculate_simple_probability_range (board : ndarray) :
  ∃ probabilities,
    calculate_simple_probability board None = Ok probabilities
    ∧ ∀ cell p, (cell, p) ∈ probabilities →
        p = uniform_probability board
        ∧ (0 <= p)%Q
        ∧ ((p <= 1)%Q ↔
           remaining_mines board ≤ Z.of_nat (length (covered_cells board))).
Proof.
  eexists. split; [apply calculate_simple_probability_ok|].
  intros cell p (cell' & [= -> ->] & Hcell)%list_elem_of_fmap.
  split; [done|]. unfold uniform_probability, remaining_mines, Qle. cbn [Qnum Qden].
  destruct (covered_cells board) as [|c l]; [by apply elem_of_nil in Hcell|].
  cbn [length]. split; [lia|]. lia.
Qed.

(** X12: whenever the constraints give at least one configuration,
    every value of the map that [calculate_probabilities] builds from
    the configurations is greater than 0 and at most 1. *)
Theorem calculate_probabilities_enumerated_range
    (board : ndarray) (constraints : list (gset coord * Z))
    (probabilities : list (coord * Q)) :
  build_constraint_set board = Ok constraints →
  constraints ≠ [] →
  enumerate_valid_configurations constraints (MAX_CONFIGURATIONS config) ≠ [] →
  calculate_probabilities board = Ok probabilities →
  ∀ cell p, (cell, p) ∈ probabilities → (0 < p)%Q ∧ (p <= 1)%Q.
Proof.
  intros Hcs Hne Hvs Hpm cell p Hin.
  destruct (calculate_probabilities_counts board constraints Hcs Hne Hvs)
    as (pm & Hpm' & _ & Hkeys & Hval & _).
  rewrite Hpm in Hpm'. injection Hpm' as <-.
  rewrite (Hval cell p Hin).
  assert (cell ∈ probabilities.*1) as Hkey.
  { apply list_elem_of_fmap. by exists (cell, p). }
  apply Hkeys in Hkey as (v & Hv & Hcell).
  set (vs := enumerate_valid_configurations _ _) in *.
  assert (0 < length (filter (λ v : gset coord, cell ∈ v) vs))%nat as Hpos.
  { assert (v ∈ filter (λ v : gset coord, cell ∈ v) vs) as Hvin
      by (by apply list_elem_of_filter).
    destruct (filter _ vs); [by apply elem_of_nil in Hvin|cbn; lia]. }
  pose proof (length_filter (λ v : gset coord, cell ∈ v) vs) as Hle.
  unfold Qlt, Qle. cbn [Qnum Qden]. split; lia.
Qed.

(** *** Boards of a real game *)

Lemma consistent_at (board : ndarray) (mines : gset coord) (p : coord) :
  consistent board mines → in_bounds board p →
  (is_numbered_cell (state_at board p) = true →
   Z.of_nat (size (mines ∩ neighbors_of board p)) = cell_number board p)
  ∧ (p ∈ mines → state_at board p = "covered" ∨ state_at board p = "flagged")
  ∧ (state_at board p = "flagged" → p ∈ mines).
Proof.
  intros Hall Hp. unfold consistent in Hall. rewrite Forall_forall in Hall.
  by apply Hall, elem_of_all_coords.
Qed.

(** Around a numbered cell the mines are the flagged neighbours and the
    mines under the covered ones. *)
Lemma mines_around (board : ndarray) (mines : gset coord) (p : coord) :
  consistent board mines → in_bounds board p →
  is_numbered_cell (state_at board p) = true →
  Z.of_nat (size (mines ∩ covered_neighbors board p))
  + Z.of_nat (size (flagged_neighbors board p))
  = cell_number board p.
Proof.
  intros Hall Hp Hnum.
  destruct (consistent_at board mines p Hall Hp) as [Hcount _].
  rewrite <- (Hcount Hnum).
  assert (mines ∩ neighbors_of board p
          = (mines ∩ covered_neighbors board p) ∪ flagged_neighbors board p) as ->.
  { apply set_eq. intros q. unfold covered_neighbors, flagged_neighbors.
    rewrite elem_of_union, !elem_of_intersection, !elem_of_filter. split.
    - intros [Hm Hn].
      destruct (consistent_at board mines q Hall (neighbors_in_bounds _ _ _ Hn))
        as (_ & Hstate & _).
      destruct (Hstate Hm); [left|right]; done.
    - intros [[Hm [_ Hn]]|[Hf Hn]]; [done|]. split; [|done].
      destruct (consistent_at board mines q Hall (neighbors_in_bounds _ _ _ Hn))
        as (_ & _ & Hflag).
      by apply Hflag. }
  rewrite (size_union (mines ∩ covered_neighbors board p) (flagged_neighbors board p));
    [lia|].
  intros q [_ Hc]%elem_of_intersection Hf.
  apply elem_of_covered_neighbors in Hc as (_ & _ & Hc).
  apply elem_of_flagged_neighbors in Hf as (_ & _ & Hf).
  rewrite Hc in Hf. discriminate.
Qed.

Lemma logic_moves_sound (board : ndarray) (mines : gset coord) (q : coord) :
  consistent board mines →
  let moves := numbered_cells board ≫= λ p, flag_moves board p ++ reveal_moves board p in
  ((q, "flag") ∈ moves → q ∈ mines) ∧ ((q, "reveal") ∈ moves → q ∉ mines).
Proof.
  intros Hall moves. unfold moves.
  split; intros (p & Hm & [Hp Hnum]%elem_of_numbered_cells)%list_elem_of_bind;
    pose proof (mines_around board mines p Hall Hp Hnum) as Haround;
    apply elem_of_app in Hm as [Hm|Hm]; unfold flag_moves, reveal_moves in Hm;
    case_bool_decide as Hrule; try (by apply elem_of_nil in Hm);
    apply list_elem_of_fmap in Hm as (q' & [= <-] & Hq%elem_of_set_iter).
  - assert (mines ∩ covered_neighbors board p = covered_neighbors board p) as Heq.
    { apply set_subseteq_size_eq; [set_solver|lia]. }
    rewrite <- Heq in Hq. by apply elem_of_intersection in Hq as [? _].
  - intros Hmine.
    assert (size (mines ∩ covered_neighbors board p) = 0%nat) as Hsize by lia.
    apply size_empty_inv in Hsize. apply (not_elem_of_empty (C := gset coord) q).
    apply Hsize. by apply elem_of_intersection.
Qed.

(** X13: the two logic rules are sound.  On a board that agrees with a
    placement of mines (every number counts the mines around it, the
    mines lie under covered or flagged cells, every flag stands on a
    mine), [apply_logic_rules] returns moves, every cell it flags holds
    a mine, and no cell it reveals does. *)
Theorem apply_logic_rules_sound (board : ndarray) (mines : gset coord) :
  consistent board mines →
  ∃ moves,
    apply_logic_rules board = Ok moves
    ∧ ∀ q, ((q, "flag") ∈ moves → q ∈ mines)
           ∧ ((q, "reveal") ∈ moves → q ∉ mines).
Proof.
  intros Hall. eexists. split; [apply apply_logic_rules_ok|].
  intros q. by apply logic_moves_sound.
Qed.

(** X14: on such a board, if no numbered cell has both a covered and a
    flagged neighbour (so, on every board without flags), the mines of
    the frontier are a valid configuration of the constraints that
    [build_constraint_set] returns; hence, when there is a constraint,
    the enumeration under the configured budget is not empty. *)
Theorem build_constraint_set_satisfiable
    (board : ndarray) (mines : gset coord) (constraints : list (gset coord * Z)) :
  consistent board mines →
  (∀ p, p ∈ numbered_cells board → covered_neighbors board p ≠ ∅ →
        flagged_neighbors board p = ∅) →
  build_constraint_set board = Ok constraints →
  valid_configuration constraints (mines ∩ frontier constraints)
  ∧ (constraints ≠ [] →
     enumerate_valid_configurations constraints (MAX_CONFIGURATIONS config) ≠ []).
Proof.
  intros Hall Hflags Hcs. rewrite build_constraint_set_ok in Hcs.
  injection Hcs as <-. set (constraints := numbered_cells board ≫= _).
  assert (valid_configuration constraints (mines ∩ frontier constraints)) as Hvalid.
  { split; [set_solver|]. apply Forall_forall. intros [X n] Hc.
    assert (X ⊆ frontier constraints) as Hsub.
    { intros q Hq. unfold frontier. apply elem_of_union_list. exists X.
      split; [|done]. apply list_elem_of_fmap. by exists (X, n). }
    apply list_elem_of_bind in Hc as (p & Hc & Hp). unfold cell_constraint in Hc.
    case_bool_decide as Hcov; [|by apply elem_of_nil in Hc].
    apply list_elem_of_singleton in Hc as [= -> ->]. cbn [fst snd].
    pose proof Hp as [Hin Hnum]%elem_of_numbered_cells.
    pose proof (mines_around board mines p Hall Hin Hnum) as Haround.
    rewrite (Hflags p Hp Hcov), size_empty in Haround.
    replace (mines ∩ frontier constraints ∩ covered_neighbors board p)
      with (mines ∩ covered_neighbors board p) by set_solver.
    lia. }
  split; [done|]. intros Hne.
  assert (frontier constraints ≠ ∅) as Hfrontier.
  { destruct constraints as [|[X n] cs] eqn:Heq; [done|].
    assert ((X, n) ∈ numbered_cells board ≫= cell_constraint board) as Hc
      by (fold constraints; rewrite Heq; left).
    apply list_elem_of_bind in Hc as (p & Hc & _). unfold cell_constraint in Hc.
    case_bool_decide as Hcov; [|by apply elem_of_nil in Hc].
    apply list_elem_of_singleton in Hc as [= -> ->].
    unfold frontier. cbn. set_solver. }
  rewrite enumerate_take by done.
  apply elem_of_all_valid in Hvalid.
  destruct (all_valid constraints); [by apply elem_of_nil in Hvalid|done].
Qed.

(** X15: a budget of zero or less is no unlimited budget: on a
    non-empty frontier the enumeration looks at the first candidate
    only, the empty set, and returns it when every constraint requires
    no mine, and nothing otherwise. *)
Theorem enumerate_valid_configurations_no_budget
    (constraints : list (gset coord * Z)) (max_iterations : Z) :
  max_iterations ≤ 0 →
  frontier constraints ≠ ∅ →
  enumerate_valid_configurations constraints max_iterations
  = if decide (Forall (λ c : gset coord * Z, c.2 = 0) constraints) then [∅] else [].
Proof.
  intros Hmax Hne. rewrite enumerate_unfold, bool_decide_eq_false_2 by done.
  unfold candidates. rewrite Nat.add_1_r. cbn [seq]. rewrite bind_cons.
  replace (combinations (set_iter (frontier constraints)) 0) with [@nil coord]
    by (by destruct (set_iter (frontier constraints))).
  cbn [app for_each]. rewrite check_candidate_eq. cbn zeta.
  assert (satisfies constraints (list_to_set []) ↔
          Forall (λ c : gset coord * Z, c.2 = 0) constraints) as Hsat.
  { unfold satisfies. apply Forall_iff. intros [X n]. cbn.
    rewrite (left_absorb_L ∅ (∩)), size_empty. split; intros; lia. }
  destruct (decide (satisfies _ _)) as [Hs|Hs];
    rewrite bool_decide_eq_true_2 by (cbn; lia);
    destruct (decide (Forall _ constraints)) as [Hz|Hz]; try done; tauto.
Qed.

(** X16: on a board with cells, [solve] returns no move exactly when
    [check_win] holds, that is when no cell of the board is covered;
    [check_game_over] holds exactly when some cell shows a mine. *)
Theorem solve_no_move_iff_win (self : MinesweeperSolver) (board : ndarray) :
  (0 < shape0 board)%nat → (0 < shape1 board)%nat →
  ((solve self board).2 = Ok [] ↔ check_win board = true)
  ∧ (check_win board = true ↔
     ∀ p, in_bounds board p → state_at board p ≠ "covered")
  ∧ (check_game_over board = true ↔
     ∃ p, in_bounds board p ∧ state_at board p = "mine").
Proof.
  intros Hr Hc.
  assert (check_win board = true ↔ covered_cells board = []) as Hwin.
  { unfold check_win, covered_cells. cbn zeta. rewrite bool_decide_eq_true.
    apply length_zero_iff_nil. }
  assert (covered_cells board = [] ↔
          ∀ p, in_bounds board p → state_at board p ≠ "covered") as Hnone.
  { split.
    - intros Hnil p Hp Hcov.
      assert (p ∈ covered_cells board) as Hin by (by apply elem_of_covered_cells).
      rewrite Hnil in Hin. by apply elem_of_nil in Hin.
    - intros Hno. apply filter_none, Forall_forall.
      intros p Hp%elem_of_all_coords. by apply Hno. }
  split_and!.
  - rewrite Hwin, solve_closed_form. split.
    + destruct (numbered_cells board ≫= _) as [|m moves]; [|done].
      destruct (calculate_probabilities board) as [[|x l]|e]; cbn [mbind res_bind];
        try done.
      rewrite _make_guess_ok by done.
      destruct (first_covered board (guess_order board)) as [p|] eqn:Hp; [done|].
      intros _. apply Hnone. intros p Hp' Hcov.
      apply (proj1 (first_covered_None _ _) Hp p); [|done].
      unfold guess_order. rewrite !elem_of_app, elem_of_all_coords. auto.
    + intros Hnil. rewrite Hnone in Hnil.
      destruct (numbered_cells board ≫= _) as [|m moves] eqn:Hmoves.
      2:{ destruct (logic_moves_covered board m) as [[Hin Hcov] _];
            [rewrite Hmoves; left|].
          destruct (Hnil _ Hin Hcov). }
      destruct (calculate_probabilities_keys board) as (pm & -> & Hkeys).
      cbn [mbind res_bind]. destruct pm as [|[cell p] pm].
      2:{ destruct (Hkeys cell) as [Hin Hcov]; [left|]. destruct (Hnil _ Hin Hcov). }
      rewrite _make_guess_ok by done.
      rewrite (proj2 (first_covered_None board (guess_order board))); [done|].
      intros p Hp. apply Hnil. pose proof (guess_order_in_bounds board Hr Hc) as Hall.
      rewrite Forall_forall in Hall. by apply Hall.
  - by rewrite Hwin.
  - unfold check_game_over. rewrite existsb_exists. split.
    + intros (p & Hp%list_elem_of_In%elem_of_all_coords & Hmine%bool_decide_eq_true).
      by exists p.
    + intros (p & Hp & Hmine). exists p. split.
      * by apply list_elem_of_In, elem_of_all_coords.
      * by apply bool_decide_eq_true.
Qed.

(** X18: on a board that agrees with a placement of mines, whatever
    [solve] returns, every cell it flags holds a mine; and when the
    logic rules find a move, every cell it reveals holds none. *)
Theorem solve_certain_moves_sound
    (self : MinesweeperSolver) (board : ndarray) (mines : gset coord)
    (moves : list move) :
  consistent board mines →
  (solve self board).2 = Ok moves →
  (∀ q, (q, "flag") ∈ moves → q ∈ mines)
  ∧ (apply_logic_rules board ≠ Ok [] → ∀ q, (q, "reveal") ∈ moves → q ∉ mines).
Proof.
  intros Hall Hsolve. rewrite solve_closed_form in Hsolve.
  rewrite apply_logic_rules_ok.
  pose proof (λ q, logic_moves_sound board mines q Hall) as Hsound. cbn zeta in Hsound.
  destruct (numbered_cells board ≫= _) as [|m ms].
  - split; [|done]. intros q Hq.
    destruct (calculate_probabilities board) as [[|x l]|e]; cbn [mbind res_bind] in Hsolve;
      [|injection Hsolve as <-; by apply list_elem_of_singleton in Hq|done].
    destruct (decide (shape0 board = 0 ∨ shape1 board = 0)%nat) as [Hempty|Hcells].
    { by rewrite _make_guess_empty in Hsolve. }
    rewrite _make_guess_ok in Hsolve by lia.
    destruct (first_covered board (guess_order board)); injection Hsolve as <-.
    + by apply list_elem_of_singleton in Hq.
    + by apply elem_of_nil in Hq.
  - injection Hsolve as <-. split; [|intros _]; intros q; by apply Hsound.
Qed.

(** *** Boards without numbers *)

Lemma min_by_value_const (x : coord * Q) (l : list coord) :
  min_by_value x ((λ cell, (cell, x.2)) <$> l) = x.
Proof.
  unfold min_by_value. induction l as [|c l IH]; [done|].
  cbn [fmap list_fmap fold_left snd].
  replace (Qlt_bool x.2 x.2) with false; [exact IH|].
  unfold Qlt_bool. by rewrite (proj2 (Qle_bool_iff x.2 x.2) (Qle_refl _)).
Qed.

Lemma solve_unnumbered (self : MinesweeperSolver) (board : ndarray) :
  (0 < shape0 board)%nat → (0 < shape1 board)%nat →
  numbered_cells board = [] →
  (solve self board).2
  = Ok (match covered_cells board with
        | [] => []
        | cell :: _ => [(cell, "reveal")]
        end).
Proof.
  intros Hr Hc Hnum.
  rewrite solve_closed_form, Hnum. cbn [mbind list_bind].
  unfold calculate_probabilities.
  rewrite build_constraint_set_ok, Hnum. cbn [mbind list_bind res_bind].
  rewrite calculate_simple_probability_ok. cbn [mbind res_bind].
  destruct (covered_cells board) as [|cell l] eqn:Hcov; cbn [fmap list_fmap].
  - rewrite _make_guess_ok by done.
    rewrite (proj2 (first_covered_None board (guess_order board))); [done|].
    intros p Hp Hstate.
    pose proof (guess_order_in_bounds board Hr Hc) as Hall.
    rewrite Forall_forall in Hall.
    assert (p ∈ covered_cells board) as Hin by (apply elem_of_covered_cells; auto).
    rewrite Hcov in Hin. by apply elem_of_nil in Hin.
  - set (u := uniform_probability board).
    pose proof (min_by_value_const (cell, u) l) as Hmin. cbn [snd] in Hmin.
    by rewrite Hmin.
Qed.

(** X19: on a board with cells none of which shows a number, [solve]
    uses neither the logic rules nor the enumeration: it reveals the
    first covered cell in row-major order, and returns no move when no
    cell is covered. *)
Theorem solve_without_numbers (self : MinesweeperSolver) (board : ndarray) :
  (0 < shape0 board)%nat → (0 < shape1 board)%nat →
  (∀ p, in_bounds board p → is_numbered_cell (state_at board p) = false) →
  apply_logic_rules board = Ok []
  ∧ build_constraint_set board = Ok []
  ∧ (solve self board).2
    = Ok (match covered_cells board with
          | [] => []
          | cell :: _ => [(cell, "reveal")]
          end).
Proof.
  intros Hr Hc Hnone.
  assert (numbered_cells board = []) as Hnum.
  { unfold numbered_cells. apply filter_none, Forall_forall.
    intros p Hp%elem_of_all_coords. by rewrite (Hnone p Hp). }
  split; [by rewrite apply_logic_rules_ok, Hnum|].
  split; [by rewrite build_constraint_set_ok, Hnum|].
  by apply solve_unnumbered.
Qed.

(** *** The board reader *)

Lemma classify_cell_states `{Images}
    (cell_image : image) (color_thresholds : thresholds) :
  classify_cell cell_image color_thresholds
    ∈ ["unknown"; "mine"; "flagged"; "covered"; "uncovered"].
Proof using Type.
  unfold classify_cell. cbn zeta.
  repeat match goal with |- context [if ?b then _ else _] => destruct b end;
    cbn; repeat constructor.
Qed.

(** X20: [classify_cell] returns one of the five states "covered",
    "uncovered", "flagged", "mine" and "unknown", never a number; an
    image without entries is "unknown"; with the configured thresholds
    an image with entries is a mine exactly when no channel of its mean
    colour exceeds 30, flagged exactly when the red channel lies in
    [200, 255], and covered exactly when blue and green lie in
    [180, 200] and red in [180, 200): a mean of (200, 200, 200) is
    flagged. *)
Theorem classify_cell_spec `{Images}
    (cell_image : image) (color_thresholds : thresholds) :
  let state := classify_cell cell_image color_thresholds in
  let avg_color := mean_color cell_image in
  state ∈ ["covered"; "uncovered"; "flagged"; "mine"; "unknown"]
  ∧ is_numbered_cell state = false
  ∧ (image_size cell_image = 0 → state = "unknown")
  ∧ (image_size cell_image ≠ 0 → color_thresholds = get_color_thresholds →
     (state = "mine" ↔
      (avg_color.1.1 <= inject_Z 30 ∧ avg_color.1.2 <= inject_Z 30
       ∧ avg_color.2 <= inject_Z 30)%Q)
     ∧ (state = "flagged" ↔
        (inject_Z 200 <= avg_color.2 ∧ avg_color.2 <= inject_Z 255)%Q)
     ∧ (state = "covered" ↔
        (inject_Z 180 <= avg_color.1.1 ∧ avg_color.1.1 <= inject_Z 200
         ∧ inject_Z 180 <= avg_color.1.2 ∧ avg_color.1.2 <= inject_Z 200
         ∧ inject_Z 180 <= avg_color.2 ∧ avg_color.2 < inject_Z 200)%Q)).
Proof using Type.
  intros state avg_color.
  pose proof (classify_cell_states cell_image color_thresholds) as Hstates.
  fold state in Hstates.
  split_and!.
  - rewrite !elem_of_cons, elem_of_nil in Hstates |- *. tauto.
  - rewrite !elem_of_cons, elem_of_nil in Hstates.
    destruct_or!; try done; by rewrite Hstates.
  - intros Hsize. unfold state, classify_cell. by rewrite bool_decide_eq_true_2.
  - intros Hsize ->. unfold state, classify_cell.
    rewrite bool_decide_eq_false_2 by done. fold avg_color.
    cbv [get_color_thresholds th_mine th_flag th_covered lower upper all_le all_ge
         config STATE_MINE STATE_FLAGGED STATE_COVERED STATE_UNCOVERED STATE_UNKNOWN].
    destruct avg_color as [[b g] r]. cbn [fst snd].
    change (inject_Z 30) with (30 # 1)%Q. change (inject_Z 200) with (200 # 1)%Q.
    change (inject_Z 255) with (255 # 1)%Q. change (inject_Z 180) with (180 # 1)%Q.
    repeat match goal with
      | |- context [Qle_bool ?x ?y] =>
          let E := fresh "E" in
          destruct (Qle_bool x y) eqn:E;
          [apply Qle_bool_iff in E
          |apply not_true_iff_false in E; rewrite Qle_bool_iff in E];
          cbn [andb]
      end;
      try destruct (Qlt_bool _ _);
      split_and!;
      (split; intros Hstate;
       [first [discriminate Hstate | repeat split; lra]
       |destruct_and?; first [reflexivity | exfalso; lra]]).
Qed.

Lemma for_in_app {A S} (l1 l2 : list A) (body : A → S → res S) (s : S) :
  for_in (l1 ++ l2) body s = s' ← for_in l1 body s; for_in l2 body s'.
Proof.
  revert s. induction l1 as [|x l1 IH]; intros s; [done|].
  cbn. destruct (body x s); cbn; [apply IH|done].
Qed.

Lemma for_in_flatten {A B S} (l1 : list A) (l2 : list B)
    (body : A → B → S → res S) (s : S) :
  for_in l1 (λ x s, for_in l2 (body x) s) s
  = for_in (x ← l1; y ← l2; [(x, y)]) (λ d s, body d.1 d.2 s) s.
Proof.
  revert s. induction l1 as [|x l1 IH]; intros s; [done|].
  rewrite bind_cons, for_in_app. cbn [for_in].
  assert (∀ s, for_in l2 (body x) s
               = for_in (y ← l2; [(x, y)]) (λ d s, body d.1 d.2 s) s) as ->.
  { clear. induction l2 as [|y l2 IH]; intros s; [done|].
    rewrite bind_cons. cbn. destruct (body x y s); cbn; [apply IH|done]. }
  destruct (for_in _ _ s); cbn; [apply IH|done].
Qed.

Lemma setitem_in_bounds (board : ndarray) (p : coord) (v : string) :
  in_bounds board p →
  ∃ board',
    setitem board p v = Ok board'
    ∧ shape0 board' = shape0 board ∧ shape1 board' = shape1 board
    ∧ ∀ q, state_at board' q = if bool_decide (q = p) then v else state_at board q.
Proof.
  intros [Hr Hc]. unfold setitem, normalize_index.
  rewrite !bool_decide_eq_true_2 by done. cbn [mbind res_bind].
  eexists. split; [done|]. split; [done|]. split; [done|].
  intros [q1 q2]. destruct p as [p1 p2]. unfold state_at. cbn [item fst snd].
  repeat case_bool_decide; naive_solver.
Qed.

(** Assigning [f p] to every position [p] of a list. *)
Lemma fill_loop (f : coord → string) (l : list coord) (board : ndarray) :
  Forall (in_bounds board) l →
  ∃ board',
    for_in l (λ p b, setitem b p (f p)) board = Ok board'
    ∧ shape0 board' = shape0 board ∧ shape1 board' = shape1 board
    ∧ ∀ q, q ∈ l → state_at board' q = f q.
Proof.
  intros Hl.
  assert (∃ board',
    for_in l (λ p b, setitem b p (f p)) board = Ok board'
    ∧ shape0 board' = shape0 board ∧ shape1 board' = shape1 board
    ∧ ∀ q, state_at board' q = if bool_decide (q ∈ l) then f q else state_at board q)
    as (board' & H & H0 & H1 & Hstate).
  { revert board Hl. induction l as [|p l IH]; intros board Hl.
    { exists board. split_and!; try done. }
    apply Forall_cons in Hl as [Hp Hl]. cbn [for_in].
    destruct (setitem_in_bounds board p (f p) Hp) as (b1 & -> & Hs0 & Hs1 & Hb1).
    cbn [mbind res_bind].
    destruct (IH b1) as (b2 & -> & Ht0 & Ht1 & Hb2).
    { eapply Forall_impl; [exact Hl|]. unfold in_bounds. by rewrite Hs0, Hs1. }
    exists b2. split; [done|]. split; [congruence|]. split; [congruence|].
    intros q. rewrite Hb2, Hb1.
    repeat case_bool_decide; set_solver. }
  exists board'. split_and!; try done.
  intros q Hq. by rewrite Hstate, bool_decide_eq_true_2.
Qed.

(** X21: [read_board] raises [RuntimeError] on a reader that was not
    initialised and numpy's [ValueError] for a negative number of rows
    or columns; otherwise it returns a board of the reader's shape
    whose cell (r, c) is the class of the image cut out at
    (origin_y + r * height, origin_x + c * width).  Such a board shows
    no number: the logic rules give no move and there is no constraint,
    and when the board has cells [solve] reveals its first covered cell
    in row-major order. *)
Theorem read_board_spec `{Images}
    (reader : BoardReader) (window_image : image) (self : MinesweeperSolver) :
  (self_cell_size reader = None ∨ self_grid_origin reader = None →
   read_board reader window_image = inl RuntimeError)
  ∧ ∀ cell_size grid_origin rows cols,
      self_cell_size reader = Some cell_size →
      self_grid_origin reader = Some grid_origin →
      self_rows reader = Some rows →
      self_cols reader = Some cols →
      (rows < 0 ∨ cols < 0 → read_board reader window_image = inl (Numpy ValueError))
      ∧ (0 ≤ rows → 0 ≤ cols →
         ∃ board,
           read_board reader window_image = inr board
           ∧ shape0 board = Z.to_nat rows ∧ shape1 board = Z.to_nat cols
           ∧ (∀ p, in_bounds board p →
                getitem board p
                = Ok (classify_cell (cell_image window_image cell_size grid_origin p)
                        (self_color_thresholds reader)))
           ∧ apply_logic_rules board = Ok []
           ∧ build_constraint_set board = Ok []
           ∧ (0 < rows → 0 < cols →
              (solve self board).2
              = Ok (match covered_cells board with
                    | [] => []
                    | cell :: _ => [(cell, "reveal")]
                    end))).
Proof.
  split.
  - unfold read_board. intros [-> | ->]; [done|].
    by destruct (self_cell_size reader).
  - intros cell_size grid_origin rows cols Hsize Horigin Hrows Hcols.
    unfold read_board. rewrite Hsize, Horigin, Hrows, Hcols. split.
    + intros Hneg. unfold np_empty. cbn [fst snd].
      by rewrite bool_decide_eq_true_2.
    + intros Hr Hc. unfold np_empty. cbn [fst snd].
      rewrite bool_decide_eq_false_2 by lia. cbn [mbind res_bind].
      set (board0 := {| shape0 := Z.to_nat rows; shape1 := Z.to_nat cols;
                        item := λ _ _, EmptyString |}).
      set (f := λ p : coord,
             classify_cell (cell_image window_image cell_size grid_origin p)
               (self_color_thresholds reader)).
      rewrite (for_in_flatten (range rows) (range cols)
                 (λ row col board,
                    setitem board (row, col)
                      (classify_cell
                         (crop window_image
                            (grid_origin.2 + row * cell_size.2,
                             grid_origin.2 + row * cell_size.2 + cell_size.2)
                            (grid_origin.1 + col * cell_size.1,
                             grid_origin.1 + col * cell_size.1 + cell_size.1))
                         (self_color_thresholds reader)))).
      assert ((x ← range rows; y ← range cols; [(x, y)]) = all_coords board0) as ->.
      { unfold all_coords, board0. cbn [shape0 shape1]. by rewrite !Z2Nat.id. }
      destruct (fill_loop f (all_coords board0) board0) as (board & Hfill & H0 & H1 & Hcells).
      { apply Forall_forall. intros p. apply elem_of_all_coords. }
      assert (for_in (all_coords board0)
                (λ d s, setitem s (d.1, d.2)
                   (classify_cell
                      (crop window_image
                         (grid_origin.2 + d.1 * cell_size.2,
                          grid_origin.2 + d.1 * cell_size.2 + cell_size.2)
                         (grid_origin.1 + d.2 * cell_size.1,
                          grid_origin.1 + d.2 * cell_size.1 + cell_size.1))
                      (self_color_thresholds reader))) board0
              = Ok board) as ->.
      { rewrite <- Hfill. generalize board0 at 2 4. clear.
        induction (all_coords board0) as [|[r c] l IH]; intros b; [done|].
        cbn [for_in fst snd]. unfold f at 2, cell_image. cbn [fst snd].
        destruct (setitem b (r, c) _); cbn; [apply IH|done]. }
      assert (∀ p, in_bounds board p → state_at board p = f p) as Hstate.
      { intros p Hp. apply Hcells, elem_of_all_coords.
        unfold in_bounds in *. by rewrite <- H0, <- H1. }
      assert (∀ p, in_bounds board p → is_numbered_cell (state_at board p) = false)
        as Hnone.
      { intros p Hp. rewrite (Hstate p Hp). unfold f.
        pose proof (classify_cell_states
                      (cell_image window_image cell_size grid_origin p)
                      (self_color_thresholds reader)) as Hin.
        rewrite !elem_of_cons, elem_of_nil in Hin.
        destruct_or!; try done; by rewrite Hin. }
      exists board. split; [done|]. split; [done|]. split; [done|]. split.
      { intros p Hp. by rewrite getitem_in_bounds, Hstate. }
      assert (numbered_cells board = []) as Hnum.
      { unfold numbered_cells. apply filter_none, Forall_forall.
        intros p Hp%elem_of_all_coords. by rewrite (Hnone p Hp). }
      split; [by rewrite apply_logic_rules_ok, Hnum|].
      split; [by rewrite build_constraint_set_ok, Hnum|].
      intros Hrpos Hcpos.
      apply solve_unnumbered; [rewrite H0|rewrite H1|exact Hnum];
        unfold board0; cbn [shape0 shape1]; lia.
Qed.

End Solver.

(** ** Concrete boards and constraints *)

(** C1 on the two-cell constraint with a budget of two. *)
Lemma enumerate_valid_configurations_correct_witness :
  enumerate_valid_configurations elements [({[ (0, 0); (0, 1) ]}, 1)] 2
  ≡ₚ [{[ (0, 0) ]}; {[ (0, 1) ]}].
Proof.
  destruct (enumerate_valid_configurations_correct elements
              (λ X, reflexivity (elements X)) [({[ (0, 0); (0, 1) ]}, 1)] 2)
    as (_ & _ & _ & H).
  apply H. lia.
Defined.

(** C1 as stated fails without constraints: the empty configuration is
    then the one valid configuration, the budget of one covers it, and
    nothing is returned. *)
Lemma enumerate_empty_frontier_counterexample :
  (∀ l, NoDup l → Forall (valid_configuration []) l → Z.of_nat (length l) ≤ 1)
  ∧ valid_configuration [] ∅
  ∧ enumerate_valid_configurations elements [] 1 = []
  ∧ ¬ (∀ S, S ∈ enumerate_valid_configurations elements [] 1
            ↔ valid_configuration [] S).
Proof.
  assert (valid_configuration [] ∅) as Hvalid by (split; [done|constructor]).
  split_and!; [|done|done|].
  - intros l Hnd Hl. destruct l as [|S1 [|S2 l]]; cbn; [lia..|].
    apply NoDup_cons in Hnd as [Hnd _]. destruct Hnd.
    apply Forall_cons in Hl as [H1 Hl]. apply Forall_cons in Hl as [H2 _].
    destruct H1 as [H1 _], H2 as [H2 _]. unfold frontier in H1, H2. cbn in H1, H2.
    assert (S1 = ∅) as -> by set_solver. assert (S2 = ∅) as -> by set_solver.
    by left.
  - intros Hall. apply Hall in Hvalid. by apply elem_of_nil in Hvalid.
Qed.

(** C2 on the two-cell constraint with a budget of one. *)
Lemma enumerate_valid_configurations_budget_witness :
  Z.of_nat (length (enumerate_valid_configurations elements
                      [({[ (0, 0); (0, 1) ]}, 1)] 1)) ≤ 1.
Proof.
  pose proof (enumerate_valid_configurations_budget elements
                (λ X, reflexivity (elements X)) [({[ (0, 0); (0, 1) ]}, 1)] 1
                ltac:(lia)) as H.
  cbv zeta in H. destruct H as [H _]. exact H.
Defined.

(** C3 on a 1 whose only covered neighbour must be a mine. *)
Lemma apply_logic_rules_spec_witness :
  apply_logic_rules elements (array [["uncovered"; "1"; "covered"]])
  = Ok [((0, 2), "flag")].
Proof.
  destruct (apply_logic_rules_spec elements (λ X, reflexivity (elements X))
              (array [["uncovered"; "1"; "covered"]])) as [H _].
  etrans; [exact H|]. vm_compute. reflexivity.
Defined.

(** C4 on one numbered cell next to one covered cell. *)
Lemma calculate_probabilities_enumerated_witness :
  ∃ probabilities,
    calculate_probabilities elements (array [["1"; "covered"]]) = Ok probabilities
    ∧ NoDup probabilities.*1.
Proof.
  destruct (calculate_probabilities_enumerated elements (λ X, reflexivity (elements X))
              (array [["1"; "covered"]]) [({[ (0, 1) ]}, 1)])
    as (probabilities & H & Hnd & _).
  - vm_compute. reflexivity.
  - discriminate.
  - vm_compute. discriminate.
  - exists probabilities. split; [exact H|exact Hnd].
Defined.

(** C5 on a 1 in the middle of eight covered cells: there is no
    logic move, hence one reveal of minimal probability. *)
Lemma solve_phases_witness :
  ∃ cell,
    (solve elements {| self_board := None |}
       (array [["covered"; "covered"; "covered"];
               ["covered"; "1"; "covered"];
               ["covered"; "covered"; "covered"]])).2
    = Ok [(cell, "reveal")].
Proof.
  destruct (solve_phases elements {| self_board := None |}
              (array [["covered"; "covered"; "covered"];
                      ["covered"; "1"; "covered"];
                      ["covered"; "covered"; "covered"]]))
    as (_ & _ & H & _).
  edestruct H as (cell & p & Hsolve & Hin & _).
  - vm_compute. reflexivity.
  - vm_compute. reflexivity.
  - discriminate.
  - exists cell. exact Hsolve.
Defined.

(** C6 on the all-covered beginner board. *)
Lemma uniform_fallback_witness :
  calculate_probabilities elements
    {| shape0 := 9; shape1 := 9; item := λ _ _, "covered" |}
  = Ok ((λ cell, (cell, Qmake 10 81)) <$>
          all_coords {| shape0 := 9; shape1 := 9; item := λ _ _, "covered" |}).
Proof.
  destruct (uniform_fallback elements (λ X, reflexivity (elements X))
              {| shape0 := 9; shape1 := 9; item := λ _ _, "covered" |})
    as (_ & _ & _ & _ & _ & _ & _ & _ & _ & _ & _ & H).
  apply H; [reflexivity|reflexivity|]. intros cell _. reflexivity.
Defined.

(** C6 as stated fails on a board of four cells: 4 * 0.15 is 0.6, which
    rounds to 1 and truncates to 0, and the code truncates. *)
Lemma uniform_fallback_round_counterexample :
  calculate_probabilities elements
    (array [["covered"; "covered"]; ["covered"; "covered"]])
  = Ok [((0, 0), Qmake 0 4); ((0, 1), Qmake 0 4);
        ((1, 0), Qmake 0 4); ((1, 1), Qmake 0 4)]
  ∧ Qmake (Z.max 0 (spec_total_mines 2 2 - 0)) 4 = Qmake 1 4
  ∧ ¬ (Qmake 0 4 == Qmake 1 4)%Q.
Proof. split_and!; [vm_compute; reflexivity|vm_compute; reflexivity|discriminate]. Qed.

(** C7 on one numbered cell next to one covered cell. *)
Lemma build_constraint_set_spec_witness :
  build_constraint_set elements (array [["1"; "covered"]])
  = Ok [({[ (0, 1) ]}, 1)].
Proof.
  destruct (build_constraint_set_spec elements (λ X, reflexivity (elements X))
              (array [["1"; "covered"]])) as [H _].
  etrans; [exact H|]. vm_compute. reflexivity.
Defined.

(** C7 as stated fails on a 5 with a single covered neighbour: the
    constraint cannot be met, and it is emitted all the same. *)
Lemma build_constraint_set_unsatisfiable_counterexample :
  build_constraint_set elements (array [["5"; "covered"]])
  = Ok [({[ (0, 1) ]}, 5)]
  ∧ ¬ (0 ≤ 5 ≤ Z.of_nat (size ({[ (0, 1) ]} : gset (Z * Z)))).
Proof. split; [vm_compute; reflexivity|]. rewrite size_singleton. lia. Qed.

(** C8: on a 9 by 9 board with a single covered cell and no flag the
    map gives that cell the value 10, which is not in [0, 1]. *)
Theorem calculate_probabilities_above_one (set_iter : gset (Z * Z) → list (Z * Z)) :
  calculate_probabilities set_iter
    (array (("covered" :: replicate 8 "uncovered")
            :: replicate 8 (replicate 9 "uncovered")))
  = Ok [((0, 0), Qmake 10 1)]
  ∧ ¬ (Qmake 10 1 <= 1)%Q.
Proof.
  split; [vm_compute; reflexivity|]. intros H. vm_compute in H. by apply H.
Qed.

(** C9: on the board of shape (0, 0), where no cell is covered,
    [solve] does not return the empty list: the first look of
    [_make_guess], at (0, 0), raises [IndexError]. *)
Theorem solve_empty_board_raises
    (set_iter : gset (Z * Z) → list (Z * Z)) (self : MinesweeperSolver) :
  covered_cells {| shape0 := 0; shape1 := 0; item := λ _ _, "" |} = []
  ∧ (solve set_iter self {| shape0 := 0; shape1 := 0; item := λ _ _, "" |}).2
    = Raise IndexError.
Proof. split; vm_compute; reflexivity. Qed.

(** C10 on the two by two board of [tests/test_solver.py]. *)
Lemma solve_moves_in_bounds_covered_witness :
  ∃ moves,
    (solve elements {| self_board := None |}
       (array [["covered"; "covered"]; ["covered"; "1"]])).2 = Ok moves.
Proof.
  destruct (solve_moves_in_bounds_covered elements (λ X, reflexivity (elements X))
              {| self_board := None |}
              (array [["covered"; "covered"]; ["covered"; "1"]])) as [H _].
  apply H; cbn; lia.
Defined.

(** ** Neighbours of a cell *)

Lemma NoDup_neighbor_offsets : NoDup neighbor_offsets.
Proof. apply (bool_decide_unpack _). vm_compute. exact I. Qed.

Lemma size_neighbors_of (board : ndarray) (p : Z * Z) :
  size (neighbors_of board p)
  = length (filter (λ q, in_bounds board q)
              ((λ d : Z * Z, (p.1 + d.1, p.2 + d.2)) <$> neighbor_offsets)).
Proof.
  unfold neighbors_of. apply size_list_to_set, NoDup_filter.
  apply NoDup_fmap_2_strong; [|apply NoDup_neighbor_offsets].
  intros [d1 d2] [e1 e2] _ _ [= H1 H2]. f_equal; lia.
Qed.

Lemma size_neighbors_of_le (board : ndarray) (p : Z * Z) :
  (size (neighbors_of board p) ≤ 8)%nat.
Proof.
  rewrite size_neighbors_of. etrans; [apply length_filter|].
  by rewrite length_fmap.
Qed.

Lemma get_neighbors_blank (rows cols row col : Z) :
  0 ≤ row < rows → 0 ≤ col < cols →
  get_neighbors rows cols row col = Ok (neighbors_of (blank rows cols) (row, col)).
Proof.
  intros Hr Hc.
  pose proof (get_neighbors_ok elements (λ X, reflexivity (elements X))
                (blank rows cols) (row, col)) as H.
  cbn [blank shape0 shape1 fst snd] in H. rewrite !Z2Nat.id in H by lia.
  apply H. split; cbn; lia.
Qed.

(** X1: [get_neighbors] raises [ValueError] exactly when the cell is
    outside the board; otherwise it returns the cells of the board at
    Chebyshev distance 1 from the cell, at most eight of them, the cell
    itself never among them, and being a neighbour is symmetric. *)
Theorem get_neighbors_spec (rows cols row col : Z) :
  (¬ (0 ≤ row < rows ∧ 0 ≤ col < cols) →
   get_neighbors rows cols row col = Raise ValueError)
  ∧ (0 ≤ row < rows ∧ 0 ≤ col < cols →
     ∃ X, get_neighbors rows cols row col = Ok X
          ∧ (∀ q, q ∈ X ↔ (0 ≤ q.1 < rows ∧ 0 ≤ q.2 < cols) ∧ adjacent (row, col) q)
          ∧ ((row, col) ∉ X)
          ∧ (size X ≤ 8)%nat
          ∧ (∀ q, q ∈ X → ∃ Y, get_neighbors rows cols q.1 q.2 = Ok Y ∧ (row, col) ∈ Y)).
Proof.
  split.
  - intros Hout. unfold get_neighbors.
    destruct (bool_decide (0 ≤ row < rows)) eqn:Hr, (bool_decide (0 ≤ col < cols)) eqn:Hc;
      try done.
    apply bool_decide_eq_true in Hr, Hc. tauto.
  - intros [Hr Hc]. exists (neighbors_of (blank rows cols) (row, col)).
    assert (∀ q, q ∈ neighbors_of (blank rows cols) (row, col)
                 ↔ (0 ≤ q.1 < rows ∧ 0 ≤ q.2 < cols) ∧ adjacent (row, col) q) as Hmem.
    { intros q. rewrite elem_of_neighbors_of. unfold in_bounds. cbn [blank shape0 shape1].
      rewrite !Z2Nat.id by lia. done. }
    split_and!.
    + by apply get_neighbors_blank.
    + done.
    + rewrite Hmem. unfold adjacent. cbn. lia.
    + apply size_neighbors_of_le.
    + intros q [[Hq1 Hq2] Hadj]%Hmem. exists (neighbors_of (blank rows cols) q).
      split; [destruct q; by apply get_neighbors_blank|].
      apply elem_of_neighbors_of. split.
      * unfold in_bounds. cbn [blank shape0 shape1 fst snd]. rewrite !Z2Nat.id by lia. done.
      * unfold adjacent in *. cbn in *. lia.
Qed.

(** X1 on the corner of the beginner board. *)
Lemma get_neighbors_spec_witness :
  ∃ X, get_neighbors 9 9 0 0 = Ok X ∧ (0, 0) ∉ X.
Proof.
  destruct (get_neighbors_spec 9 9 0 0) as [_ H].
  destruct H as (X & HX & _ & Hself & _); [lia|].
  exists X. split; [exact HX|exact Hself].
Defined.

Lemma neighbor_count (board : ndarray) (p : Z * Z) :
  in_bounds board p →
  Z.of_nat (size (neighbors_of board p))
  = (1 + (if bool_decide (0 < p.1) then 1 else 0)
       + (if bool_decide (p.1 + 1 < Z.of_nat (shape0 board)) then 1 else 0))
    * (1 + (if bool_decide (0 < p.2) then 1 else 0)
         + (if bool_decide (p.2 + 1 < Z.of_nat (shape1 board)) then 1 else 0))
    - 1.
Proof.
  intros [Hr Hc]. rewrite size_neighbors_of. unfold neighbor_offsets.
  destruct p as [r c]. cbn [fst snd fmap list_fmap] in *.
  repeat case_bool_decide;
    repeat first
      [ rewrite filter_cons_True by (unfold in_bounds; cbn [fst snd]; lia)
      | rewrite filter_cons_False by (unfold in_bounds; cbn [fst snd]; lia) ];
    rewrite filter_nil; reflexivity.
Qed.

(** X2: on a board with at least two rows and two columns a corner
    cell has exactly 3 neighbours, a cell on an edge that is not a
    corner exactly 5, and every other cell exactly 8. *)
Theorem get_neighbors_count (rows cols row col : Z) (X : gset (Z * Z)) :
  2 ≤ rows → 2 ≤ cols →
  get_neighbors rows cols row col = Ok X →
  let on_row_edge := row = 0 ∨ row = rows - 1 in
  let on_col_edge := col = 0 ∨ col = cols - 1 in
  (on_row_edge ∧ on_col_edge → size X = 3%nat)
  ∧ (on_row_edge ∧ ¬ on_col_edge ∨ ¬ on_row_edge ∧ on_col_edge → size X = 5%nat)
  ∧ (¬ on_row_edge ∧ ¬ on_col_edge → size X = 8%nat).
Proof.
  intros Hrows Hcols HX.
  assert (0 ≤ row < rows ∧ 0 ≤ col < cols) as [Hr Hc].
  { destruct (decide (0 ≤ row < rows ∧ 0 ≤ col < cols)) as [?|Hout]; [done|].
    apply (proj1 (get_neighbors_spec rows cols row col)) in Hout. congruence. }
  rewrite get_neighbors_blank in HX by done. injection HX as <-.
  pose proof (neighbor_count (blank rows cols) (row, col)) as Hcount.
  cbn [blank shape0 shape1 fst snd] in Hcount. rewrite !Z2Nat.id in Hcount by lia.
  specialize (Hcount ltac:(split; cbn; rewrite Z2Nat.id by lia; done)).
  cbn zeta. repeat case_bool_decide; split_and!; intros; lia.
Qed.

(** X2 on the beginner board: a corner, an edge and the centre. *)
Lemma get_neighbors_count_witness :
  size (neighbors_of (blank 9 9) (0, 4)) = 5%nat.
Proof.
  destruct (get_neighbors_count 9 9 0 4 (neighbors_of (blank 9 9) (0, 4)))
    as (_ & H & _); [lia|lia|by apply get_neighbors_blank|].
  apply H. lia.
Defined.

(** ** Cells and screen positions *)

Lemma div_cell (w k d : Z) : 0 < w → 0 ≤ d < w → (k * w + d) / w = k.
Proof.
  intros Hw Hd. symmetry. apply (Z.div_unique_pos _ _ _ d); lia.
Qed.

(** X3: with cells of positive width and height, every screen position
    inside the rectangle of the cell (row, col) is mapped to (row, col)
    by [screen_coordinates_to_cell]; the position that
    [cell_coordinates_to_screen] gives lies inside that rectangle, so
    the two functions compose to the identity on cells; a cell width or
    height of zero makes [screen_coordinates_to_cell] raise
    [ZeroDivisionError]. *)
Theorem screen_cell_round_trip (row col : Z) (grid_origin cell_size : Z * Z) :
  (0 < cell_size.1 → 0 < cell_size.2 →
   (∀ dx dy, 0 ≤ dx < cell_size.1 → 0 ≤ dy < cell_size.2 →
      screen_coordinates_to_cell
        (grid_origin.1 + col * cell_size.1 + dx)
        (grid_origin.2 + row * cell_size.2 + dy) grid_origin cell_size
      = Ok (row, col))
   ∧ (let '(x, y) := cell_coordinates_to_screen row col grid_origin cell_size in
      grid_origin.1 + col * cell_size.1 ≤ x < grid_origin.1 + (col + 1) * cell_size.1
      ∧ grid_origin.2 + row * cell_size.2 ≤ y < grid_origin.2 + (row + 1) * cell_size.2
      ∧ screen_coordinates_to_cell x y grid_origin cell_size = Ok (row, col)))
  ∧ (cell_size.1 = 0 ∨ cell_size.2 = 0 →
     ∀ x y, screen_coordinates_to_cell x y grid_origin cell_size
            = Raise ZeroDivisionError).
Proof.
  destruct grid_origin as [ox oy], cell_size as [w h]. cbn [fst snd]. split.
  - intros Hw Hh.
    assert (∀ dx dy, 0 ≤ dx < w → 0 ≤ dy < h →
      screen_coordinates_to_cell (ox + col * w + dx) (oy + row * h + dy) (ox, oy) (w, h)
      = Ok (row, col)) as Hback.
    { intros dx dy Hdx Hdy. unfold screen_coordinates_to_cell, floordiv.
      rewrite !bool_decide_eq_false_2 by lia. cbn [mbind res_bind].
      replace (ox + col * w + dx - ox) with (col * w + dx) by lia.
      replace (oy + row * h + dy - oy) with (row * h + dy) by lia.
      by rewrite !div_cell. }
    split; [done|]. unfold cell_coordinates_to_screen.
    assert (0 ≤ w / 2 < w) by (split; [apply Z.div_pos|apply Z.div_lt]; lia).
    assert (0 ≤ h / 2 < h) by (split; [apply Z.div_pos|apply Z.div_lt]; lia).
    split_and!; try lia. by apply Hback.
  - intros H0 x y. unfold screen_coordinates_to_cell, floordiv.
    destruct H0 as [-> | ->].
    + by rewrite (bool_decide_eq_true_2 (0 = 0)).
    + rewrite (bool_decide_eq_true_2 (0 = 0)) by done. by case_bool_decide.
Qed.

(** X3 on the cell and the sizes of [tests/test_board_manager.py]. *)
Lemma screen_cell_round_trip_witness :
  screen_coordinates_to_cell 175 145 (100, 100) (30, 30) = Ok (1, 2).
Proof.
  destruct (screen_cell_round_trip 1 2 (100, 100) (30, 30)) as [H _].
  destruct H as [_ H]; [cbn; lia|cbn; lia|].
  cbn in H. destruct H as (_ & _ & H). exact H.
Defined.

(** X4: the position that [MouseController._cell_to_screen_coords]
    clicks is the position of [cell_coordinates_to_screen] moved by the
    top-left corner of the window; with cells of positive size, taking
    that corner off again and asking [screen_coordinates_to_cell] gives
    back the cell. *)
Theorem _cell_to_screen_coords_spec
    (self : MouseController) (row col : Z) (grid_origin cell_size : Z * Z) :
  let '(x, y) := _cell_to_screen_coords self row col grid_origin cell_size in
  let '(window_left, window_top, _, _) := window_rect self in
  (x, y) = ((cell_coordinates_to_screen row col grid_origin cell_size).1 + window_left,
            (cell_coordinates_to_screen row col grid_origin cell_size).2 + window_top)
  ∧ (0 < cell_size.1 → 0 < cell_size.2 →
     screen_coordinates_to_cell (x - window_left) (y - window_top) grid_origin cell_size
     = Ok (row, col)).
Proof.
  unfold _cell_to_screen_coords.
  destruct grid_origin as [ox oy], cell_size as [w h],
    (window_rect self) as [[[left top] right] bottom].
  cbn [fst snd cell_coordinates_to_screen]. split; [f_equal; lia|].
  intros Hw Hh.
  destruct (screen_cell_round_trip row col (ox, oy) (w, h)) as [H _].
  destruct (H Hw Hh) as [_ Hc]. cbn [fst snd cell_coordinates_to_screen] in Hc.
  destruct Hc as (_ & _ & Hc). rewrite <- Hc. f_equal; lia.
Qed.

(** X4 for a window at (200, 50). *)
Lemma _cell_to_screen_coords_spec_witness :
  screen_coordinates_to_cell (375 - 200) (195 - 50) (100, 100) (30, 30) = Ok (1, 2).
Proof.
  pose proof (_cell_to_screen_coords_spec
    {| window_hwnd := 1; window_rect := (200, 50, 900, 700); enable_safety := true;
       min_action_delay := Qmake 1 10; last_action_time := Qmake 0 1 |}
    1 2 (100, 100) (30, 30)) as H.
  cbn in H. destruct H as [_ H]. apply H; lia.
Defined.

(** X5: with cells of positive size [detect_board_size] returns the
    largest numbers of rows and columns of whole cells that fit
    between the grid origin and the border of the image, so that every
    cell it counts lies inside the image; a cell width or height of zero
    raises [ZeroDivisionError]. *)
Theorem detect_board_size_spec (image_shape cell_size grid_origin : Z * Z) :
  (0 < cell_size.1 → 0 < cell_size.2 →
   ∃ rows cols,
     detect_board_size image_shape cell_size grid_origin = Ok (rows, cols)
     ∧ grid_origin.1 + cols * cell_size.1 ≤ image_shape.2
       < grid_origin.1 + (cols + 1) * cell_size.1
     ∧ grid_origin.2 + rows * cell_size.2 ≤ image_shape.1
       < grid_origin.2 + (rows + 1) * cell_size.2
     ∧ (∀ row col, 0 ≤ row < rows → 0 ≤ col < cols →
          grid_origin.1 + col * cell_size.1 + cell_size.1 ≤ image_shape.2
          ∧ grid_origin.2 + row * cell_size.2 + cell_size.2 ≤ image_shape.1))
  ∧ (cell_size.1 = 0 ∨ cell_size.2 = 0 →
     detect_board_size image_shape cell_size grid_origin = Raise ZeroDivisionError).
Proof.
  destruct image_shape as [ih iw], cell_size as [w h], grid_origin as [ox oy].
  cbn [fst snd]. unfold detect_board_size, floordiv. split.
  - intros Hw Hh. rewrite !bool_decide_eq_false_2 by lia. cbn [mbind res_bind].
    eexists _, _. split; [done|].
    pose proof (Z.mul_div_le (iw - ox) w Hw).
    pose proof (Z.mul_succ_div_gt (iw - ox) w Hw).
    pose proof (Z.mul_div_le (ih - oy) h Hh).
    pose proof (Z.mul_succ_div_gt (ih - oy) h Hh).
    split_and!; try lia. intros row col Hrow Hcol. split; nia.
  - intros [-> | ->].
    + by rewrite (bool_decide_eq_true_2 (0 = 0)).
    + rewrite (bool_decide_eq_true_2 (0 = 0)) by done. by case_bool_decide.
Qed.

(** X5 on a 300 by 300 image with cells of 30 by 30 from (10, 10). *)
Lemma detect_board_size_spec_witness :
  detect_board_size (300, 300) (30, 30) (10, 10) = Ok (9, 9).
Proof.
  destruct (detect_board_size_spec (300, 300) (30, 30) (10, 10)) as [H _].
  destruct H as (rows & cols & H & _); [cbn; lia|cbn; lia|].
  rewrite H. vm_compute in H. injection H as <- <-. reflexivity.
Defined.

(** ** Cell values *)




(** ** Numbered cells *)

(** X7: [get_numbered_cells] never raises; it returns the positions of
    the board whose state is a numbered cell, each once and in
    row-major order, and no other position. *)
Theorem get_numbered_cells_spec (board : ndarray) :
  ∃ numbered,
    get_numbered_cells board = Ok numbered
    ∧ NoDup numbered
    ∧ StronglySorted row_major numbered
    ∧ (∀ p, p ∈ numbered ↔
            (0 ≤ p.1 < Z.of_nat (shape0 board) ∧ 0 ≤ p.2 < Z.of_nat (shape1 board))
            ∧ is_numbered_cell (item board p.1 p.2) = true).
Proof.
  exists (numbered_cells board). split_and!.
  - apply get_numbered_cells_ok.
  - apply NoDup_filter, NoDup_all_coords.
  - apply numbered_cells_sorted.
  - apply elem_of_numbered_cells.
Qed.

(** ** The safest cell *)

Lemma min_by_value_first (pre mid l : list (Z * Z * Q)) (x : Z * Z * Q) :
  (∀ y, y ∈ pre → (x.2 < y.2)%Q) →
  (∀ y, y ∈ mid → (x.2 <= y.2)%Q) →
  ∃ l1 l2,
    pre ++ x :: mid ++ l = l1 ++ min_by_value x l :: l2
    ∧ (∀ y, y ∈ l1 → ((min_by_value x l).2 < y.2)%Q)
    ∧ (∀ y, y ∈ l2 → ((min_by_value x l).2 <= y.2)%Q).
Proof.
  unfold min_by_value. revert pre mid x. induction l as [|a l IH]; intros pre mid x Hpre Hmid.
  { exists pre, mid. by rewrite app_nil_r. }
  cbn [fold_left]. destruct (Qlt_bool a.2 x.2) eqn:E'; unfold Qlt_bool in E';
    destruct (Qle_bool x.2 a.2) eqn:E; try done; clear E'.
  - assert (a.2 < x.2)%Q as Hlt.
    { apply Qnot_le_lt. intros Hle. apply Qle_bool_iff in Hle. congruence. }
    destruct (IH (pre ++ x :: mid) [] a) as (l1 & l2 & Heq & H1 & H2).
    + intros y [Hy|[->|Hy]%elem_of_cons]%elem_of_app.
      * eapply Qlt_trans; [done|]. by apply Hpre.
      * done.
      * eapply Qlt_le_trans; [done|]. by apply Hmid.
    + intros y Hy. by apply elem_of_nil in Hy.
    + exists l1, l2. split; [|done]. rewrite <- Heq. cbn [app].
      by rewrite <- app_assoc.
  - apply Qle_bool_iff in E.
    destruct (IH pre (mid ++ [a]) x) as (l1 & l2 & Heq & H1 & H2); [done| |].
    { intros y [Hy| ->%list_elem_of_singleton]%elem_of_app; auto. }
    exists l1, l2. split; [|done]. by rewrite <- Heq, <- app_assoc.
Qed.

(** X8: [get_safest_cell] returns [None] on the empty map and on no
    other; on a non-empty map it returns the key of the first entry,
    in the order of the map, whose probability is the least: every
    entry before it has a strictly greater probability, every entry
    after it one at least as great. *)
Theorem get_safest_cell_spec (probabilities : list (Z * Z * Q)) :
  (get_safest_cell probabilities = None ↔ probabilities = [])
  ∧ ∀ cell, get_safest_cell probabilities = Some cell →
      ∃ before p after,
        probabilities = before ++ (cell, p) :: after
        ∧ (∀ y, y ∈ before → (p < y.2)%Q)
        ∧ (∀ y, y ∈ after → (p <= y.2)%Q).
Proof.
  split.
  - by destruct probabilities.
  - intros cell Hcell. destruct probabilities as [|x l]; [done|].
    cbn in Hcell. injection Hcell as <-.
    destruct (min_by_value_first [] [] l x) as (l1 & l2 & Heq & H1 & H2).
    + intros y Hy. by apply elem_of_nil in Hy.
    + intros y Hy. by apply elem_of_nil in Hy.
    + exists l1, (min_by_value x l).2, l2. cbn [app] in Heq.
      split; [|done]. rewrite Heq. by destruct (min_by_value x l).
Qed.

(** X8 on a map with a tie: the first of the two cells at 1/5 wins. *)
Lemma get_safest_cell_spec_witness :
  ∃ before p after,
    [((0, 0), Qmake 4 5); ((0, 1), Qmake 1 5); ((1, 0), Qmake 1 5)]
    = before ++ ((0, 1), p) :: after.
Proof.
  destruct (get_safest_cell_spec
              [((0, 0), Qmake 4 5); ((0, 1), Qmake 1 5); ((1, 0), Qmake 1 5)]) as [_ H].
  destruct (H (0, 1)) as (before & p & after & Heq & _); [reflexivity|].
  exists before, p, after. exact Heq.
Defined.

(** ** Neighbours by state *)

(** X17: [get_unrevealed_neighbors] and [get_flagged_neighbors] raise
    [ValueError] for a cell outside the board; for a cell of the board
    they return the covered and the flagged cells among its
    neighbours, two disjoint sets of at most eight cells together. *)
Theorem neighbors_by_state_spec
    (set_iter : gset (Z * Z) → list (Z * Z)) (board : ndarray) (row col : Z) :
  (∀ X, set_iter X ≡ₚ elements X) →
  (¬ in_bounds board (row, col) →
   get_unrevealed_neighbors set_iter board row col = Raise ValueError
   ∧ get_flagged_neighbors set_iter board row col = Raise ValueError)
  ∧ (in_bounds board (row, col) →
     ∃ unrevealed flagged : gset (Z * Z),
       get_unrevealed_neighbors set_iter board row col = Ok unrevealed
       ∧ get_flagged_neighbors set_iter board row col = Ok flagged
       ∧ (∀ q, q ∈ unrevealed ↔
               in_bounds board q ∧ adjacent (row, col) q
               ∧ state_at board q = "covered")
       ∧ (∀ q, q ∈ flagged ↔
               in_bounds board q ∧ adjacent (row, col) q
               ∧ state_at board q = "flagged")
       ∧ unrevealed ## flagged
       ∧ (size unrevealed + size flagged ≤ 8)%nat).
Proof.
  intros Hperm. split.
  - intros Hout.
    assert (get_neighbors (Z.of_nat (shape0 board)) (Z.of_nat (shape1 board)) row col
            = Raise ValueError) as Hraise.
    { unfold get_neighbors, in_bounds in *. cbn [fst snd] in Hout.
      destruct (bool_decide (0 ≤ row < _)) eqn:Hr, (bool_decide (0 ≤ col < _)) eqn:Hc;
        try done.
      apply bool_decide_eq_true in Hr, Hc. tauto. }
    unfold get_unrevealed_neighbors, get_flagged_neighbors. by rewrite Hraise.
  - intros Hin.
    exists (covered_neighbors board (row, col)), (flagged_neighbors board (row, col)).
    assert (covered_neighbors board (row, col) ## flagged_neighbors board (row, col))
      as Hdisj.
    { intros q (_ & _ & Hc)%elem_of_covered_neighbors
               (_ & _ & Hf)%elem_of_flagged_neighbors.
      rewrite Hc in Hf. discriminate. }
    split_and!.
    + apply (get_unrevealed_neighbors_ok set_iter Hperm board (row, col) Hin).
    + apply (get_flagged_neighbors_ok set_iter Hperm board (row, col) Hin).
    + apply elem_of_covered_neighbors.
    + apply elem_of_flagged_neighbors.
    + done.
    + rewrite <- (size_union (covered_neighbors board (row, col))
                    (flagged_neighbors board (row, col))) by done.
      etrans; [|apply (size_neighbors_of_le board (row, col))].
      apply subseteq_size. unfold covered_neighbors, flagged_neighbors.
      intros q [Hq|Hq]%elem_of_union; apply elem_of_filter in Hq; tauto.
Qed.

(** X17 on the numbered cell of a board of two cells. *)
Lemma neighbors_by_state_spec_witness :
  ∃ unrevealed flagged : gset (Z * Z),
    get_unrevealed_neighbors elements (array [["1"; "covered"]]) 0 0 = Ok unrevealed
    ∧ get_flagged_neighbors elements (array [["1"; "covered"]]) 0 0 = Ok flagged
    ∧ unrevealed ## flagged.
Proof.
  destruct (neighbors_by_state_spec elements (array [["1"; "covered"]]) 0 0
              (λ X, reflexivity (elements X))) as [_ H].
  destruct H as (U & F & HU & HF & _ & _ & Hdisj & _); [split; cbn; lia|].
  exists U, F. split; [exact HU|]. split; [exact HF|exact Hdisj].
Defined.

(** ** Witnesses of the properties of the solver *)

(** X9 on a board of two cells. *)
Lemma _make_guess_spec_witness :
  ∃ p, _make_guess (array [["1"; "covered"]]) = Ok [(p, "reveal")]
       ∧ p ∈ covered_cells (array [["1"; "covered"]]).
Proof.
  destruct (_make_guess_spec (array [["1"; "covered"]])) as [_ H].
  destruct H as [_ H]; [cbn; lia|cbn; lia|].
  destruct H as (p & Hp & Hcov & _); [vm_compute; discriminate|].
  exists p. split; [exact Hp|exact Hcov].
Defined.


(** X12 on a 1 next to one covered cell. *)
Lemma calculate_probabilities_enumerated_range_witness :
  (0 < Qmake 1 1)%Q ∧ (Qmake 1 1 <= 1)%Q.
Proof.
  apply (calculate_probabilities_enumerated_range elements
           (λ X, reflexivity (elements X))
           (array [["1"; "covered"]]) [({[ (0, 1) ]}, 1)] [((0, 1), Qmake 1 1)])
    with (cell := (0, 1)).
  - vm_compute. reflexivity.
  - discriminate.
  - vm_compute. discriminate.
  - vm_compute. reflexivity.
  - left.
Defined.

Lemma consistent_one_covered :
  consistent (array [["1"; "covered"]]) {[ (0, 1) ]}.
Proof.
  unfold consistent.
  change (all_coords (array [["1"; "covered"]])) with [(0, 0); (0, 1)].
  repeat apply Forall_cons_2; [| |apply Forall_nil_2].
  - split_and!.
    + intros _. vm_compute. reflexivity.
    + intros [=]%elem_of_singleton.
    + discriminate.
  - split_and!.
    + discriminate.
    + intros _. by left.
    + discriminate.
Defined.

(** X13 on a 1 next to one covered cell, which holds the mine. *)
Lemma apply_logic_rules_sound_witness :
  ∃ moves,
    apply_logic_rules elements (array [["1"; "covered"]]) = Ok moves
    ∧ ∀ q, ((q, "flag") ∈ moves → q ∈ ({[ (0, 1) ]} : gset (Z * Z)))
           ∧ ((q, "reveal") ∈ moves → q ∉ ({[ (0, 1) ]} : gset (Z * Z))).
Proof.
  apply (apply_logic_rules_sound elements (λ X, reflexivity (elements X))
           (array [["1"; "covered"]]) {[ (0, 1) ]} consistent_one_covered).
Defined.

(** X14 on the same board. *)
Lemma build_constraint_set_satisfiable_witness :
  valid_configuration [({[ (0, 1) ]}, 1)]
    ({[ (0, 1) ]} ∩ frontier [({[ (0, 1) ]}, 1)])
  ∧ ([({[ (0, 1) ]} : gset (Z * Z), 1)] ≠ [] →
     enumerate_valid_configurations elements [({[ (0, 1) ]}, 1)]
       (MAX_CONFIGURATIONS config) ≠ []).
Proof.
  apply (build_constraint_set_satisfiable elements (λ X, reflexivity (elements X))
           (array [["1"; "covered"]]) {[ (0, 1) ]} [({[ (0, 1) ]}, 1)]
           consistent_one_covered).
  - intros p Hp _.
    change (numbered_cells (array [["1"; "covered"]])) with [(0, 0)] in Hp.
    apply list_elem_of_singleton in Hp as ->. vm_compute. reflexivity.
  - vm_compute. reflexivity.
Defined.

(** X15 with a budget of zero. *)
Lemma enumerate_valid_configurations_no_budget_witness :
  enumerate_valid_configurations elements [({[ (0, 1) ]}, 0)] 0 = [∅].
Proof.
  etrans.
  - apply (enumerate_valid_configurations_no_budget elements
             (λ X, reflexivity (elements X)) [({[ (0, 1) ]}, 0)] 0); [lia|].
    apply (bool_decide_unpack _). vm_compute. exact I.
  - vm_compute. reflexivity.
Defined.

(** X16 on a board whose only cell is a number. *)
Lemma solve_no_move_iff_win_witness :
  (solve elements __init__ (array [["1"]])).2 = Ok [].
Proof.
  destruct (solve_no_move_iff_win elements (λ X, reflexivity (elements X))
              __init__ (array [["1"]])) as [H _]; [cbn; lia|cbn; lia|].
  apply H. vm_compute. reflexivity.
Defined.

(** X18 on a 1 next to one covered cell, which holds the mine. *)
Lemma solve_certain_moves_sound_witness :
  (solve elements __init__ (array [["1"; "covered"]])).2 = Ok [((0, 1), "flag")]
  ∧ (0, 1) ∈ ({[ (0, 1) ]} : gset (Z * Z)).
Proof.
  assert ((solve elements __init__ (array [["1"; "covered"]])).2
          = Ok [((0, 1), "flag")]) as Hsolve by (vm_compute; reflexivity).
  split; [exact Hsolve|].
  destruct (solve_certain_moves_sound elements (λ X, reflexivity (elements X))
              __init__ (array [["1"; "covered"]]) {[ (0, 1) ]} [((0, 1), "flag")]
              consistent_one_covered Hsolve) as [Hflag _].
  apply Hflag. left.
Defined.

(** X19 on a board of two cells without a number. *)
Lemma solve_without_numbers_witness :
  (solve elements __init__ (array [["uncovered"; "covered"]])).2
  = Ok [((0, 1), "reveal")].
Proof.
  destruct (solve_without_numbers elements (λ X, reflexivity (elements X))
              __init__ (array [["uncovered"; "covered"]])) as (_ & _ & Hsolve).
  - cbn. lia.
  - cbn. lia.
  - intros [r c] [Hr Hc]. cbn in Hr, Hc.
    assert (r = 0) as -> by lia.
    assert (c = 0 ∨ c = 1) as [-> | ->] by lia; reflexivity.
  - exact Hsolve.
Defined.

(** X20 on a grey cell. *)
Lemma classify_cell_spec_witness :
  classify_cell (H := grey_images) () get_color_thresholds = "covered".
Proof.
  destruct (classify_cell_spec (H := grey_images) () get_color_thresholds)
    as (_ & _ & _ & Hstates).
  destruct Hstates as (_ & _ & Hcovered); [discriminate|reflexivity|].
  apply Hcovered. cbn. unfold Qle, Qlt. cbn. lia.
Defined.

(** X21 on a screenshot of one row of two grey cells. *)
Lemma read_board_spec_witness :
  ∃ board,
    read_board (H := grey_images)
      {| self_cell_size := Some (16, 16); self_grid_origin := Some (0, 0);
         self_rows := Some 1; self_cols := Some 2;
         self_color_thresholds := get_color_thresholds |} ()
    = inr board
    ∧ apply_logic_rules elements board = Ok [].
Proof.
  destruct (read_board_spec elements (λ X, reflexivity (elements X))
              (H := grey_images)
              {| self_cell_size := Some (16, 16); self_grid_origin := Some (0, 0);
                 self_rows := Some 1; self_cols := Some 2;
                 self_color_thresholds := get_color_thresholds |} () __init__)
    as [_ Hread].
  destruct (Hread (16, 16) (0, 0) 1 2 eq_refl eq_refl eq_refl eq_refl) as [_ Hboard].
  destruct Hboard as (board & Hboard & _ & _ & _ & Hlogic & _); [lia|lia|].
  exists board. split; [exact Hboard|exact Hlogic].
Defined.
